(** * Verification of the double-pendulum engine (app/physics/pendulum_physics.py)

    Shallow embedding of [PathTracer], [Pendulum] and [PendulumSystem].
    Python floats are modelled by the real numbers [R]; the partial
    operations of Python are written out: [/] raises ZeroDivisionError on
    a zero divisor, [%] is the floored modulo of Python, [int()] truncates
    toward zero, and [deque(maxlen=m)] raises ValueError when [m < 0].
    A raised exception is [None]. *)

From Stdlib Require Import Strings.String.
From Stdlib Require Import Reals Lra Lia ZArith List Bool Permutation.
Import ListNotations.
Open Scope R_scope.

(** ** Python primitives *)

(** Option monad for code that may raise. *)
Notation "x <- m ;; k" := (match m with Some x => k | None => None end)
  (at level 61, m at next level, right associativity).

(** Python float division [x / y]: raises ZeroDivisionError when [y = 0]. *)
Definition py_div (x y : R) : option R :=
  if Req_EM_T y 0 then None else Some (x / y).

(** Python float modulo [x % y] (result has the sign of [y]). *)
Definition py_mod (x y : R) : option R :=
  if Req_EM_T y 0 then None else Some (x - y * IZR (Int_part (x / y))).

(** Python [int(x)] on a float: truncation toward zero. *)
Definition py_int (x : R) : Z :=
  if Rle_dec 0 x then Int_part x else (- Int_part (- x))%Z.

(** Python [math.atan2(y, x)]. *)
Definition py_atan2 (y x : R) : R :=
  if Rlt_dec 0 x then atan (y / x)
  else if Rlt_dec x 0 then
    (if Rle_dec 0 y then atan (y / x) + PI else atan (y / x) - PI)
  else if Rlt_dec 0 y then PI / 2
  else if Rlt_dec y 0 then - (PI / 2)
  else 0.

(** Python [max(10, m)] (as a value). *)
Definition py_max (a b : R) : R := Rmax a b.

(** [collections.deque(maxlen=m).append(x)]: drops the leftmost element
    when the deque would exceed its maximal length. *)
Definition deque_append {A : Type} (maxlen : Z) (xs : list A) (x : A) : list A :=
  let ys := xs ++ [x] in
  if (Z.of_nat (length ys) >? maxlen)%Z then tl ys else ys.

(** [deque(maxlen=m)]: raises ValueError for a negative [m]. *)
Definition new_deque {A : Type} (maxlen : Z) : option (list A) :=
  if (maxlen <? 0)%Z then None else Some [].

(** ** PendulumParams *)

Definition Color : Type := (Z * Z * Z)%type.

Record PendulumParams := mkParams {
  pp_offset_x : R; pp_offset_y : R;
  pp_length1 : R; pp_length2 : R;
  pp_mass1 : R; pp_mass2 : R;
  pp_angle1 : R; pp_angle2 : R;
  pp_velocity1 : R; pp_velocity2 : R;
  pp_path_color : Color;
  pp_path_duration : R;
  pp_show_wire : bool }.

(** ** PathTracer *)

Record PathTracer := mkPathTracer {
  points : list (R * R);
  max_points : Z;
  color : Color;
  visible : bool }.

(** [PathTracer(max_points=500, color=(0, 128, 255))]. *)
Definition new_path_tracer : PathTracer :=
  mkPathTracer [] 500 (0, 128, 255)%Z true.

(** [PathTracer.initialize(max_points, color)]. *)
Definition tracer_initialize (t : PathTracer) (mp : Z) (c : Color) : option PathTracer :=
  pts <- new_deque mp ;;
  Some (mkPathTracer pts mp c (visible t)).

(** [PathTracer.add_point(x, y)]. *)
Definition add_point (t : PathTracer) (x y : R) : PathTracer :=
  if visible t then mkPathTracer (deque_append (max_points t) (points t) (x, y))
                                 (max_points t) (color t) (visible t)
  else t.

(** [PathTracer.clear()]. *)
Definition tracer_clear (t : PathTracer) : PathTracer :=
  mkPathTracer [] (max_points t) (color t) (visible t).

(** [PathTracer.set_color(r, g, b)]. *)
Definition set_color (t : PathTracer) (r g b : Z) : PathTracer :=
  mkPathTracer (points t) (max_points t) (r, g, b) (visible t).

(** The loop of [set_duration]:
    [for i, point in enumerate(self.points): if i < self.max_points: new_points.append(point)]. *)
Fixpoint copy_points {A : Type} (mp : Z) (i : nat) (pts acc : list A) : list A :=
  match pts with
  | [] => acc
  | pt :: rest =>
      copy_points mp (S i) rest
        (if (Z.of_nat i <? mp)%Z then deque_append mp acc pt else acc)
  end.

(** [PathTracer.set_duration(seconds, fps)]. *)
Definition set_duration (t : PathTracer) (seconds fps : R) : option PathTracer :=
  let mp := py_int (seconds * fps) in
  new_points <- new_deque mp ;;
  Some (mkPathTracer (copy_points mp 0 (points t) new_points) mp (color t) (visible t)).

(** ** Pendulum *)

Record Pendulum := mkPendulum {
  pendulum_id : Z;
  path_tracer : PathTracer;
  initial_state : option PendulumParams;
  offset_x : R; offset_y : R;
  length1 : R; length2 : R;
  mass1 : R; mass2 : R;
  angle1 : R; angle2 : R;
  velocity1 : R; velocity2 : R;
  acceleration1 : R; acceleration2 : R;
  x1 : R; y1 : R; x2 : R; y2 : R;
  show_wire : bool;
  dragging : bool;
  drag_joint : Z }.

(** [Pendulum(pendulum_id)]: the constructor's default state. *)
Definition new_pendulum (pid : Z) : Pendulum :=
  mkPendulum pid new_path_tracer None 0 0 120 120 10 10 (PI / 4) (PI / 4)
             0 0 0 0 0 0 0 0 true false 0.

(** Attribute assignments [self.f = v]. *)
Definition set_length1 (p : Pendulum) (v : R) : Pendulum :=
  mkPendulum (pendulum_id p) (path_tracer p) (initial_state p) (offset_x p) (offset_y p) v
    (length2 p) (mass1 p) (mass2 p) (angle1 p) (angle2 p) (velocity1 p) (velocity2 p)
    (acceleration1 p) (acceleration2 p) (x1 p) (y1 p) (x2 p) (y2 p) (show_wire p)
    (dragging p) (drag_joint p).

Definition set_length2 (p : Pendulum) (v : R) : Pendulum :=
  mkPendulum (pendulum_id p) (path_tracer p) (initial_state p) (offset_x p) (offset_y p)
    (length1 p) v (mass1 p) (mass2 p) (angle1 p) (angle2 p) (velocity1 p) (velocity2 p)
    (acceleration1 p) (acceleration2 p) (x1 p) (y1 p) (x2 p) (y2 p) (show_wire p)
    (dragging p) (drag_joint p).

Definition set_mass1 (p : Pendulum) (v : R) : Pendulum :=
  mkPendulum (pendulum_id p) (path_tracer p) (initial_state p) (offset_x p) (offset_y p)
    (length1 p) (length2 p) v (mass2 p) (angle1 p) (angle2 p) (velocity1 p) (velocity2 p)
    (acceleration1 p) (acceleration2 p) (x1 p) (y1 p) (x2 p) (y2 p) (show_wire p)
    (dragging p) (drag_joint p).

Definition set_mass2 (p : Pendulum) (v : R) : Pendulum :=
  mkPendulum (pendulum_id p) (path_tracer p) (initial_state p) (offset_x p) (offset_y p)
    (length1 p) (length2 p) (mass1 p) v (angle1 p) (angle2 p) (velocity1 p) (velocity2 p)
    (acceleration1 p) (acceleration2 p) (x1 p) (y1 p) (x2 p) (y2 p) (show_wire p)
    (dragging p) (drag_joint p).

Definition set_angle1 (p : Pendulum) (v : R) : Pendulum :=
  mkPendulum (pendulum_id p) (path_tracer p) (initial_state p) (offset_x p) (offset_y p)
    (length1 p) (length2 p) (mass1 p) (mass2 p) v (angle2 p) (velocity1 p) (velocity2 p)
    (acceleration1 p) (acceleration2 p) (x1 p) (y1 p) (x2 p) (y2 p) (show_wire p)
    (dragging p) (drag_joint p).

Definition set_angle2 (p : Pendulum) (v : R) : Pendulum :=
  mkPendulum (pendulum_id p) (path_tracer p) (initial_state p) (offset_x p) (offset_y p)
    (length1 p) (length2 p) (mass1 p) (mass2 p) (angle1 p) v (velocity1 p) (velocity2 p)
    (acceleration1 p) (acceleration2 p) (x1 p) (y1 p) (x2 p) (y2 p) (show_wire p)
    (dragging p) (drag_joint p).

Definition set_velocity1 (p : Pendulum) (v : R) : Pendulum :=
  mkPendulum (pendulum_id p) (path_tracer p) (initial_state p) (offset_x p) (offset_y p)
    (length1 p) (length2 p) (mass1 p) (mass2 p) (angle1 p) (angle2 p) v (velocity2 p)
    (acceleration1 p) (acceleration2 p) (x1 p) (y1 p) (x2 p) (y2 p) (show_wire p)
    (dragging p) (drag_joint p).

Definition set_velocity2 (p : Pendulum) (v : R) : Pendulum :=
  mkPendulum (pendulum_id p) (path_tracer p) (initial_state p) (offset_x p) (offset_y p)
    (length1 p) (length2 p) (mass1 p) (mass2 p) (angle1 p) (angle2 p) (velocity1 p) v
    (acceleration1 p) (acceleration2 p) (x1 p) (y1 p) (x2 p) (y2 p) (show_wire p)
    (dragging p) (drag_joint p).

Definition set_positions (p : Pendulum) (x1' y1' x2' y2' : R) : Pendulum :=
  mkPendulum (pendulum_id p) (path_tracer p) (initial_state p) (offset_x p) (offset_y p)
    (length1 p) (length2 p) (mass1 p) (mass2 p) (angle1 p) (angle2 p) (velocity1 p)
    (velocity2 p) (acceleration1 p) (acceleration2 p) x1' y1' x2' y2' (show_wire p)
    (dragging p) (drag_joint p).

Definition set_show_wire (p : Pendulum) (b : bool) : Pendulum :=
  mkPendulum (pendulum_id p) (path_tracer p) (initial_state p) (offset_x p) (offset_y p)
    (length1 p) (length2 p) (mass1 p) (mass2 p) (angle1 p) (angle2 p) (velocity1 p)
    (velocity2 p) (acceleration1 p) (acceleration2 p) (x1 p) (y1 p) (x2 p) (y2 p) b
    (dragging p) (drag_joint p).

Definition set_drag_state (p : Pendulum) (b : bool) (j : Z) : Pendulum :=
  mkPendulum (pendulum_id p) (path_tracer p) (initial_state p) (offset_x p) (offset_y p)
    (length1 p) (length2 p) (mass1 p) (mass2 p) (angle1 p) (angle2 p) (velocity1 p)
    (velocity2 p) (acceleration1 p) (acceleration2 p) (x1 p) (y1 p) (x2 p) (y2 p)
    (show_wire p) b j.

Definition set_path_tracer (p : Pendulum) (t : PathTracer) : Pendulum :=
  mkPendulum (pendulum_id p) t (initial_state p) (offset_x p) (offset_y p) (length1 p)
    (length2 p) (mass1 p) (mass2 p) (angle1 p) (angle2 p) (velocity1 p) (velocity2 p)
    (acceleration1 p) (acceleration2 p) (x1 p) (y1 p) (x2 p) (y2 p) (show_wire p)
    (dragging p) (drag_joint p).

(** [Pendulum._calculate_cartesian_positions()]. *)
Definition calculate_cartesian_positions (p : Pendulum) : Pendulum :=
  let x1' := length1 p * sin (angle1 p) in
  let y1' := length1 p * cos (angle1 p) in
  let x2' := x1' + length2 p * sin (angle2 p) in
  let y2' := y1' + length2 p * cos (angle2 p) in
  set_positions p x1' y1' x2' y2'.

(** [Pendulum.initialize(params)]; [fps = 60]. *)
Definition initialize (params : PendulumParams) (p : Pendulum) : option Pendulum :=
  let max_pts := py_int (pp_path_duration params * 60) in
  t <- tracer_initialize (path_tracer p) max_pts (pp_path_color params) ;;
  Some (calculate_cartesian_positions
    (mkPendulum (pendulum_id p) t (Some params)
       (pp_offset_x params) (pp_offset_y params)
       (pp_length1 params) (pp_length2 params)
       (pp_mass1 params) (pp_mass2 params)
       (pp_angle1 params) (pp_angle2 params)
       (pp_velocity1 params) (pp_velocity2 params)
       (acceleration1 p) (acceleration2 p)
       (x1 p) (y1 p) (x2 p) (y2 p)
       (pp_show_wire params) (dragging p) (drag_joint p))).

(** [Pendulum._calculate_acceleration1(gravity)]. *)
Definition calculate_acceleration1 (p : Pendulum) (gravity : R) : option R :=
  let g := gravity in
  let m1 := mass1 p in let m2 := mass2 p in
  let l1 := length1 p in let l2 := length2 p in
  let a1 := angle1 p in let a2 := angle2 p in
  let v1 := velocity1 p in let v2 := velocity2 p in
  let num1 := - g * (2 * m1 + m2) * sin a1 in
  let num2 := - m2 * g * sin (a1 - 2 * a2) in
  let num3 := -2 * sin (a1 - a2) * m2 * (v2 ^ 2 * l2 + v1 ^ 2 * l1 * cos (a1 - a2)) in
  let den := l1 * (2 * m1 + m2 - m2 * cos (2 * a1 - 2 * a2)) in
  py_div (num1 + num2 + num3) den.

(** [Pendulum._calculate_acceleration2(gravity)]. *)
Definition calculate_acceleration2 (p : Pendulum) (gravity : R) : option R :=
  let g := gravity in
  let m1 := mass1 p in let m2 := mass2 p in
  let l1 := length1 p in let l2 := length2 p in
  let a1 := angle1 p in let a2 := angle2 p in
  let v1 := velocity1 p in let v2 := velocity2 p in
  let num1 := 2 * sin (a1 - a2) in
  let num2 := v1 ^ 2 * l1 * (m1 + m2) + g * (m1 + m2) * cos a1 in
  let num3 := v2 ^ 2 * l2 * m2 * cos (a1 - a2) in
  let den := l2 * (2 * m1 + m2 - m2 * cos (2 * a1 - 2 * a2)) in
  py_div (num1 * (num2 + num3)) den.

(** [Pendulum._velocity_verlet_step(dt, gravity)], one assignment at a time. *)
Definition velocity_verlet_step (p : Pendulum) (dt gravity : R) : option Pendulum :=
  accel1_old <- calculate_acceleration1 p gravity ;;
  accel2_old <- calculate_acceleration2 p gravity ;;
  let p := set_velocity1 p (velocity1 p + 0.5 * accel1_old * dt) in
  let p := set_velocity2 p (velocity2 p + 0.5 * accel2_old * dt) in
  let p := set_angle1 p (angle1 p + velocity1 p * dt) in
  let p := set_angle2 p (angle2 p + velocity2 p * dt) in
  r1 <- py_mod (angle1 p + PI) (2 * PI) ;;
  let p := set_angle1 p (r1 - PI) in
  r2 <- py_mod (angle2 p + PI) (2 * PI) ;;
  let p := set_angle2 p (r2 - PI) in
  accel1_new <- calculate_acceleration1 p gravity ;;
  accel2_new <- calculate_acceleration2 p gravity ;;
  let p := set_velocity1 p (velocity1 p + 0.5 * accel1_new * dt) in
  let p := set_velocity2 p (velocity2 p + 0.5 * accel2_new * dt) in
  Some p.

(** [Pendulum.update(dt, gravity)]. *)
Definition update (p : Pendulum) (dt gravity : R) : option Pendulum :=
  if dragging p then Some p
  else
    p' <- velocity_verlet_step p dt gravity ;;
    Some (calculate_cartesian_positions p').

(** [Pendulum.reset()]: [if self.initial_state: self.initialize(self.initial_state)]. *)
Definition reset (p : Pendulum) : option Pendulum :=
  match initial_state p with
  | Some params => initialize params p
  | None => Some p
  end.

(** [Pendulum.set_length(rod, value)]. *)
Definition set_length (p : Pendulum) (rod : Z) (value : R) : Pendulum :=
  calculate_cartesian_positions
    (if (rod =? 1)%Z then set_length1 p value else set_length2 p value).

(** [Pendulum.set_mass(bob, value)]. *)
Definition set_mass (p : Pendulum) (bob : Z) (value : R) : Pendulum :=
  if (bob =? 1)%Z then set_mass1 p value else set_mass2 p value.

(** [Pendulum.set_angle(joint, value)]. *)
Definition set_angle (p : Pendulum) (joint : Z) (value : R) : Pendulum :=
  calculate_cartesian_positions
    (if (joint =? 1)%Z then set_angle1 p value else set_angle2 p value).

(** [Pendulum.set_velocity(joint, value)]. *)
Definition set_velocity (p : Pendulum) (joint : Z) (value : R) : Pendulum :=
  if (joint =? 1)%Z then set_velocity1 p value else set_velocity2 p value.

(** [Pendulum.toggle_wire_visibility()]. *)
Definition toggle_wire_visibility (p : Pendulum) : Pendulum :=
  set_show_wire p (negb (show_wire p)).

(** Hit test of one bob, as written in [start_drag] and
    [try_select_pendulum_at_position]:
    [math.sqrt(dx*dx + dy*dy) <= max(10, mass)]. *)
Definition near_bob (px py bx by_ mass : R) : bool :=
  let dx := px - bx in
  let dy := py - by_ in
  if Rle_dec (sqrt (dx * dx + dy * dy)) (py_max 10 mass) then true else false.

(** [Pendulum.start_drag(position, screen_center)]; returns the Python
    return value and the new state. *)
Definition start_drag (p : Pendulum) (position screen_center : R * R) : bool * Pendulum :=
  let anchor_x := fst screen_center + offset_x p in
  let anchor_y := snd screen_center + offset_y p in
  let screen_x1 := anchor_x + x1 p in
  let screen_y1 := anchor_y + y1 p in
  let screen_x2 := anchor_x + x2 p in
  let screen_y2 := anchor_y + y2 p in
  if near_bob (fst position) (snd position) screen_x2 screen_y2 (mass2 p)
  then (true, set_drag_state p true 2)
  else if near_bob (fst position) (snd position) screen_x1 screen_y1 (mass1 p)
  then (true, set_drag_state p true 1)
  else (false, p).

(** [Pendulum.update_drag(position, screen_center)]. *)
Definition update_drag (p : Pendulum) (position screen_center : R * R) : Pendulum :=
  if negb (dragging p) then p
  else
    let anchor_x := fst screen_center + offset_x p in
    let anchor_y := snd screen_center + offset_y p in
    let rel_x := fst position - anchor_x in
    let rel_y := snd position - anchor_y in
    let p :=
      if (drag_joint p =? 1)%Z then
        let p := set_angle1 p (py_atan2 rel_y rel_x) in
        let new_length := sqrt (rel_x * rel_x + rel_y * rel_y) in
        let p := if Rlt_dec 10 new_length then set_length1 p new_length else p in
        set_velocity2 (set_velocity1 p 0) 0
      else if (drag_joint p =? 2)%Z then
        let p := calculate_cartesian_positions p in
        let rel_to_first_x := rel_x - x1 p in
        let rel_to_first_y := rel_y - y1 p in
        let p := set_angle2 p (py_atan2 rel_to_first_y rel_to_first_x) in
        let new_length := sqrt (rel_to_first_x * rel_to_first_x
                                + rel_to_first_y * rel_to_first_y) in
        let p := if Rlt_dec 10 new_length then set_length2 p new_length else p in
        set_velocity2 (set_velocity1 p 0) 0
      else p in
    calculate_cartesian_positions p.

(** [Pendulum.end_drag()]. *)
Definition end_drag (p : Pendulum) : Pendulum :=
  set_path_tracer (set_drag_state p false 0) (tracer_clear (path_tracer p)).

(** [Pendulum.calculate_energy(gravity)]. *)
Definition calculate_energy (p : Pendulum) (gravity : R) : R * R * R :=
  let g := gravity in
  let m1 := mass1 p in let m2 := mass2 p in
  let l1 := length1 p in let l2 := length2 p in
  let a1 := angle1 p in let a2 := angle2 p in
  let v1 := velocity1 p in let v2 := velocity2 p in
  let x1 := l1 * sin a1 in
  let y1 := - l1 * cos a1 in
  let x2 := x1 + l2 * sin a2 in
  let y2 := y1 - l2 * cos a2 in
  let vx1 := l1 * v1 * cos a1 in
  let vy1 := l1 * v1 * sin a1 in
  let vx2 := vx1 + l2 * v2 * cos a2 in
  let vy2 := vy1 + l2 * v2 * sin a2 in
  let ke1 := 0.5 * m1 * (vx1 ^ 2 + vy1 ^ 2) in
  let ke2 := 0.5 * m2 * (vx2 ^ 2 + vy2 ^ 2) in
  let kinetic_energy := ke1 + ke2 in
  let pe1 := m1 * g * (y1 + l1) in
  let pe2 := m2 * g * (y2 + l1 + l2) in
  let potential_energy := pe1 + pe2 in
  let total_energy := kinetic_energy + potential_energy in
  (kinetic_energy, potential_energy, total_energy).

(** Side effect of [Pendulum.render(surface)] on the state: the screen
    position of the second bob is pushed on the trace unless dragging;
    [anchor] is the surface centre plus the pendulum offset. *)
Definition render_trace (p : Pendulum) (screen_center : R * R) : Pendulum :=
  let anchor_x := fst screen_center + offset_x p in
  let anchor_y := snd screen_center + offset_y p in
  if negb (dragging p)
  then set_path_tracer p (add_point (path_tracer p) (anchor_x + x2 p) (anchor_y + y2 p))
  else p.

(** ** PendulumSystem

    The Pendulum objects live in a heap of references ([nat]); the dict
    [self.pendulums] maps ids to references and [self.selected_pendulum]
    holds a reference, so both see the same object, as in Python. The
    dict is an association list in insertion order. *)

Definition Loc := nat.

Fixpoint dict_get (d : list (Z * Loc)) (k : Z) : option Loc :=
  match d with
  | [] => None
  | (k', v) :: r => if (k' =? k)%Z then Some v else dict_get r k
  end.

Definition dict_mem (d : list (Z * Loc)) (k : Z) : bool :=
  match dict_get d k with Some _ => true | None => false end.

(** [d[k] = v]: overwrites in place, or appends a new key at the end. *)
Fixpoint dict_set (d : list (Z * Loc)) (k : Z) (v : Loc) : list (Z * Loc) :=
  match d with
  | [] => [(k, v)]
  | (k', v') :: r => if (k' =? k)%Z then (k', v) :: r else (k', v') :: dict_set r k v
  end.

(** [del d[k]]. *)
Fixpoint dict_del (d : list (Z * Loc)) (k : Z) : list (Z * Loc) :=
  match d with
  | [] => []
  | (k', v') :: r => if (k' =? k)%Z then r else (k', v') :: dict_del r k
  end.

Definition Heap := Loc -> option Pendulum.

Definition heap_set (h : Heap) (l : Loc) (q : Pendulum) : Heap :=
  fun l' => if Nat.eqb l' l then Some q else h l'.

Record PendulumSystem := mkSystem {
  pendulums : list (Z * Loc);
  heap : Heap;
  selected_pendulum : option Loc;
  next_pendulum_id : Z;
  next_loc : Loc }.

(** [PendulumSystem()]. *)
Definition new_system : PendulumSystem := mkSystem [] (fun _ => None) None 0%Z 0%nat.

(** [PendulumSystem.initialize()]. *)
Definition system_initialize (s : PendulumSystem) : PendulumSystem :=
  mkSystem [] (heap s) None 0 (next_loc s).

(** The loop [for pendulum in self.pendulums.values(): pendulum.update(dt, gravity)]. *)
Fixpoint update_all (d : list (Z * Loc)) (h : Heap) (dt gravity : R) : option Heap :=
  match d with
  | [] => Some h
  | (_, l) :: r =>
      q <- h l ;;
      q' <- update q dt gravity ;;
      update_all r (heap_set h l q') dt gravity
  end.

(** [PendulumSystem.update(dt, gravity)]. *)
Definition system_update (s : PendulumSystem) (dt gravity : R) : option PendulumSystem :=
  h <- update_all (pendulums s) (heap s) dt gravity ;;
  Some (mkSystem (pendulums s) h (selected_pendulum s) (next_pendulum_id s) (next_loc s)).

(** [PendulumSystem.create_pendulum(params)]: returns the new object. *)
Definition create_pendulum (s : PendulumSystem) (params : PendulumParams)
  : option (Loc * PendulumSystem) :=
  let pid := next_pendulum_id s in
  let l := next_loc s in
  q <- initialize params (new_pendulum pid) ;;
  Some (l, mkSystem (dict_set (pendulums s) pid l) (heap_set (heap s) l q)
                    (Some l) (pid + 1)%Z (S l)).

(** [PendulumSystem.remove_pendulum(pendulum_id)]. *)
Definition remove_pendulum (s : PendulumSystem) (pid : Z) : bool * PendulumSystem :=
  if dict_mem (pendulums s) pid then
    let sel :=
      match selected_pendulum s with
      | Some l =>
          match heap s l with
          | Some q => if (pendulum_id q =? pid)%Z then None else Some l
          | None => Some l
          end
      | None => None
      end in
    (true, mkSystem (dict_del (pendulums s) pid) (heap s) sel
                    (next_pendulum_id s) (next_loc s))
  else (false, s).

(** [PendulumSystem.select_pendulum(pendulum_id)]. *)
Definition select_pendulum (s : PendulumSystem) (pid : Z) : option Loc * PendulumSystem :=
  match dict_get (pendulums s) pid with
  | Some l => (Some l, mkSystem (pendulums s) (heap s) (Some l)
                                (next_pendulum_id s) (next_loc s))
  | None => (None, s)
  end.

(** [PendulumSystem.get_pendulum_by_id(pendulum_id)]. *)
Definition get_pendulum_by_id (s : PendulumSystem) (pid : Z) : option Loc :=
  dict_get (pendulums s) pid.

(** [PendulumSystem.clear()]. *)
Definition system_clear (s : PendulumSystem) : PendulumSystem :=
  mkSystem [] (heap s) None (next_pendulum_id s) (next_loc s).

(** The body of the loop of [try_select_pendulum_at_position]. *)
Definition pendulum_at (q : Pendulum) (position screen_center : R * R) : bool :=
  let anchor_x := fst screen_center + offset_x q in
  let anchor_y := snd screen_center + offset_y q in
  if near_bob (fst position) (snd position) (anchor_x + x2 q) (anchor_y + y2 q) (mass2 q)
  then true
  else if near_bob (fst position) (snd position) (anchor_x + x1 q) (anchor_y + y1 q) (mass1 q)
  then true
  else false.

Fixpoint scan_at (h : Heap) (d : list (Z * Loc)) (position screen_center : R * R)
  : option Loc :=
  match d with
  | [] => None
  | (_, l) :: r =>
      match h l with
      | Some q => if pendulum_at q position screen_center then Some l
                  else scan_at h r position screen_center
      | None => scan_at h r position screen_center
      end
  end.

(** [PendulumSystem.try_select_pendulum_at_position(position, screen_center)]. *)
Definition try_select_pendulum_at_position (s : PendulumSystem) (position screen_center : R * R)
  : option Loc * PendulumSystem :=
  match scan_at (heap s) (pendulums s) position screen_center with
  | Some l => (Some l, mkSystem (pendulums s) (heap s) (Some l)
                                (next_pendulum_id s) (next_loc s))
  | None => (None, s)
  end.

(** The operations of [PendulumSystem] that a caller can invoke. *)
Inductive system_op :=
| OpInitialize
| OpUpdate (dt gravity : R)
| OpCreate (params : PendulumParams)
| OpRemove (pid : Z)
| OpSelect (pid : Z)
| OpGet (pid : Z)
| OpGetSelected
| OpCount
| OpClear
| OpTrySelect (position screen_center : R * R).

(** The state after an operation ([None]: the operation raised). *)
Definition run_system_op (o : system_op) (s : PendulumSystem) : option PendulumSystem :=
  match o with
  | OpInitialize => Some (system_initialize s)
  | OpUpdate dt g => system_update s dt g
  | OpCreate params => r <- create_pendulum s params ;; Some (snd r)
  | OpRemove pid => Some (snd (remove_pendulum s pid))
  | OpSelect pid => Some (snd (select_pendulum s pid))
  | OpGet _ | OpGetSelected | OpCount => Some s
  | OpClear => Some (system_clear s)
  | OpTrySelect pos c => Some (snd (try_select_pendulum_at_position s pos c))
  end.

(** The selected object, when there is one, is an entry of the dict. *)
Definition selection_live (s : PendulumSystem) : Prop :=
  forall l, selected_pendulum s = Some l -> exists k, In (k, l) (pendulums s).

(** Invariant of [PendulumSystem]: unique keys, each entry refers to a
    live object carrying its key as [id], references and ids are below
    the allocation counters, and the selection is live. *)
Definition system_inv (s : PendulumSystem) : Prop :=
  NoDup (map fst (pendulums s)) /\
  (forall k l, In (k, l) (pendulums s) ->
     exists q, heap s l = Some q /\ pendulum_id q = k) /\
  (forall k l, In (k, l) (pendulums s) ->
     (l < next_loc s)%nat /\ (k < next_pendulum_id s)%Z) /\
  selection_live s.

(** ** Pendulum operations and reachable states *)

(** A body created from [params] by [create_pendulum]. *)
Definition create_body (pid : Z) (params : PendulumParams) : option Pendulum :=
  initialize params (new_pendulum pid).

(** The calls a caller can make on a Pendulum object. *)
Inductive pendulum_op :=
| PUpdate (dt gravity : R)
| PSetLength (rod : Z) (value : R)
| PSetMass (bob : Z) (value : R)
| PSetAngle (joint : Z) (value : R)
| PSetVelocity (joint : Z) (value : R)
| PToggleWire
| PStartDrag (position screen_center : R * R)
| PUpdateDrag (position screen_center : R * R)
| PEndDrag
| PReset
| PRender (screen_center : R * R)
| PSetPathDuration (seconds fps : R)
| PSetPathColor (r g b : Z).

Definition run_pendulum_op (o : pendulum_op) (p : Pendulum) : option Pendulum :=
  match o with
  | PUpdate dt g => update p dt g
  | PSetLength j v => Some (set_length p j v)
  | PSetMass j v => Some (set_mass p j v)
  | PSetAngle j v => Some (set_angle p j v)
  | PSetVelocity j v => Some (set_velocity p j v)
  | PToggleWire => Some (toggle_wire_visibility p)
  | PStartDrag pos c => Some (snd (start_drag p pos c))
  | PUpdateDrag pos c => Some (update_drag p pos c)
  | PEndDrag => Some (end_drag p)
  | PReset => reset p
  | PRender c => Some (render_trace p c)
  | PSetPathDuration s fps =>
      t <- set_duration (path_tracer p) s fps ;; Some (set_path_tracer p t)
  | PSetPathColor r g b => Some (set_path_tracer p (set_color (path_tracer p) r g b))
  end.

(** States reached by a sequence of calls that did not raise (a raised
    exception is not caught by the application and ends it). *)
Inductive reachable (p : Pendulum) : Pendulum -> Prop :=
| reach_refl : reachable p p
| reach_step q o q' : reachable p q -> run_pendulum_op o q = Some q' -> reachable p q'.

(** The physical state of a body: angles, angular velocities, rod lengths,
    masses and Cartesian offsets. *)
Definition body_state (p : Pendulum) :=
  (angle1 p, angle2 p, velocity1 p, velocity2 p, length1 p, length2 p,
   mass1 p, mass2 p, (x1 p, y1 p, x2 p, y2 p)).

(** ** The integration scheme as the specification states it *)

Definition spec_accel1 (g m1 m2 l1 l2 a1 a2 v1 v2 : R) : R :=
  (- g * (2 * m1 + m2) * sin a1 - m2 * g * sin (a1 - 2 * a2)
   - 2 * sin (a1 - a2) * m2 * (v2 ^ 2 * l2 + v1 ^ 2 * l1 * cos (a1 - a2)))
  / (l1 * (2 * m1 + m2 - m2 * cos (2 * a1 - 2 * a2))).

Definition spec_accel2 (g m1 m2 l1 l2 a1 a2 v1 v2 : R) : R :=
  2 * sin (a1 - a2) * (v1 ^ 2 * l1 * (m1 + m2) + g * (m1 + m2) * cos a1
                       + v2 ^ 2 * l2 * m2 * cos (a1 - a2))
  / (l2 * (2 * m1 + m2 - m2 * cos (2 * a1 - 2 * a2))).

(** The bracket of both denominators. *)
Definition spec_bracket (m1 m2 a1 a2 : R) : R := 2 * m1 + m2 - m2 * cos (2 * a1 - 2 * a2).

(** The fields that an integration step leaves alone. *)
Definition same_configuration (p p' : Pendulum) : Prop :=
  pendulum_id p' = pendulum_id p /\ path_tracer p' = path_tracer p /\
  initial_state p' = initial_state p /\
  offset_x p' = offset_x p /\ offset_y p' = offset_y p /\
  length1 p' = length1 p /\ length2 p' = length2 p /\
  mass1 p' = mass1 p /\ mass2 p' = mass2 p /\
  acceleration1 p' = acceleration1 p /\ acceleration2 p' = acceleration2 p /\
  show_wire p' = show_wire p /\ dragging p' = dragging p /\ drag_joint p' = drag_joint p.

(** One step of the scheme: old accelerations, half-step velocities,
    full-step angles reduced modulo [2 PI], new accelerations from the new
    angles and half-step velocities, completed velocities, and the
    Cartesian offsets of the new angles. *)
Definition verlet_scheme (p : Pendulum) (dt g : R) (p' : Pendulum) : Prop :=
  let m1 := mass1 p in let m2 := mass2 p in
  let l1 := length1 p in let l2 := length2 p in
  let a1 := angle1 p in let a2 := angle2 p in
  let v1 := velocity1 p in let v2 := velocity2 p in
  let acc_old1 := spec_accel1 g m1 m2 l1 l2 a1 a2 v1 v2 in
  let acc_old2 := spec_accel2 g m1 m2 l1 l2 a1 a2 v1 v2 in
  let hv1 := v1 + 0.5 * acc_old1 * dt in
  let hv2 := v2 + 0.5 * acc_old2 * dt in
  let na1 := angle1 p' in let na2 := angle2 p' in
  (exists k1 k2 : Z, na1 = a1 + hv1 * dt + 2 * PI * IZR k1 /\
                     na2 = a2 + hv2 * dt + 2 * PI * IZR k2) /\
  velocity1 p' = hv1 + 0.5 * spec_accel1 g m1 m2 l1 l2 na1 na2 hv1 hv2 * dt /\
  velocity2 p' = hv2 + 0.5 * spec_accel2 g m1 m2 l1 l2 na1 na2 hv1 hv2 * dt /\
  x1 p' = l1 * sin na1 /\ y1 p' = l1 * cos na1 /\
  x2 p' = l1 * sin na1 + l2 * sin na2 /\ y2 p' = l1 * cos na1 + l2 * cos na2 /\
  same_configuration p p'.

(** The angle normalisation [((a + pi) % (2 pi)) - pi] with the Python
    modulo by [2 pi] written out. *)
Definition normalize_angle (a : R) : R :=
  (a + PI) - 2 * PI * IZR (Int_part ((a + PI) / (2 * PI))) - PI.

(** ** Concrete instances *)

(** The physical state that [initialize(params)] sets up. *)
Definition params_body_state (params : PendulumParams) :=
  let l1 := pp_length1 params in let l2 := pp_length2 params in
  let a1 := pp_angle1 params in let a2 := pp_angle2 params in
  (a1, a2, pp_velocity1 params, pp_velocity2 params, l1, l2,
   pp_mass1 params, pp_mass2 params,
   (l1 * sin a1, l1 * cos a1, l1 * sin a1 + l2 * sin a2, l1 * cos a1 + l2 * cos a2)).

(** A pendulum at rest, not dragged, used for the concrete instances below. *)
Definition sample_pendulum : Pendulum := calculate_cartesian_positions (new_pendulum 0).

(** Ten samples, for the concrete instance of the resize. *)
Definition ten_samples : list (R * R) :=
  [(0, 0); (1, 0); (2, 0); (3, 0); (4, 0); (5, 0); (6, 0); (7, 0); (8, 0); (9, 0)].

Definition ten_sample_tracer : PathTracer := mkPathTracer ten_samples 500 (0, 128, 255)%Z true.

(** The parameters of [PendulumParams()] with the defaults of the source. *)
Definition default_params : PendulumParams :=
  mkParams 0 0 120 120 10 10 (PI / 4) (PI / 4) 0 0 (0, 128, 255)%Z 2.0 true.

(** A system holding one selected pendulum with id 0. *)
Definition one_pendulum_system : PendulumSystem :=
  mkSystem [(0%Z, 0%nat)] (heap_set (fun _ => None) 0%nat sample_pendulum) (Some 0%nat) 1%Z 1%nat.

(** ** Drawing of the path trace *)

(** One call [pygame.draw.line(surface, (r, g, b, alpha), start, end, 2)]. *)
Definition Segment : Type := (Z * Z * Z * Z * (R * R) * (R * R))%type.

Definition segment_alpha (sg : Segment) : Z :=
  let '(_, _, _, alpha, _, _) := sg in alpha.

(** The draw calls of [PathTracer.render(surface)]: nothing when the trace
    is hidden or has fewer than two points; otherwise, for [i] in
    [range(1, n)], the segment from [points_list[i-1]] to [points_list[i]]
    with [alpha = int(255 * (i / n))] ([n >= 2], so the division does not
    raise). *)
Definition render_segments (t : PathTracer) : list Segment :=
  let n := length (points t) in
  if negb (visible t) || (n <? 2)%nat then []
  else map (fun i =>
              let alpha := py_int (255 * (INR i / INR n)) in
              let '(r, g, b) := color t in
              (r, g, b, alpha, nth (i - 1) (points t) (0, 0), nth i (points t) (0, 0)))
           (seq 1 (n - 1)).

(** ** State predicates of a Pendulum *)

(** The Cartesian offsets are those of the angles and lengths, as
    [_calculate_cartesian_positions] computes them. *)
Definition cartesian_consistent (p : Pendulum) : Prop :=
  x1 p = length1 p * sin (angle1 p) /\ y1 p = length1 p * cos (angle1 p) /\
  x2 p = x1 p + length2 p * sin (angle2 p) /\ y2 p = y1 p + length2 p * cos (angle2 p).

(** The stored points fit in the deque's maximal length. *)
Definition trace_bounded (t : PathTracer) : Prop :=
  (0 <= max_points t)%Z /\ (Z.of_nat (length (points t)) <= max_points t)%Z.

(** ** SimulationScene (app/scenes/simulation_scene.py)

    The scene holds the [PendulumSystem] and its own flag [self.dragging];
    [screen_center] is [(surface.get_width() // 2, surface.get_height() // 2)]. *)

(** A method call that mutates the object at reference [l]. *)
Definition set_object (s : PendulumSystem) (l : Loc) (q : Pendulum) : PendulumSystem :=
  mkSystem (pendulums s) (heap_set (heap s) l q) (selected_pendulum s)
           (next_pendulum_id s) (next_loc s).

(** [SimulationScene._handle_simulation_click(pos)]: returns the new
    [self.dragging] and the system. *)
Definition handle_simulation_click (s : PendulumSystem) (scene_dragging : bool)
  (pos screen_center : R * R) : bool * PendulumSystem :=
  match try_select_pendulum_at_position s pos screen_center with
  | (Some l, s1) =>
      match heap s1 l with
      | Some q => let r := start_drag q pos screen_center in (fst r, set_object s1 l (snd r))
      | None => (scene_dragging, s1)
      end
  | (None, s1) => (scene_dragging, s1)
  end.

(** [SimulationScene._handle_simulation_drag(pos)] (the slider updates
    only read the state). *)
Definition handle_simulation_drag (s : PendulumSystem) (scene_dragging : bool)
  (pos screen_center : R * R) : PendulumSystem :=
  match selected_pendulum s with
  | Some l =>
      match heap s l with
      | Some q => if scene_dragging then set_object s l (update_drag q pos screen_center) else s
      | None => s
      end
  | None => s
  end.

(** [SimulationScene._handle_simulation_release()]: returns the new
    [self.dragging] and the system. *)
Definition handle_simulation_release (s : PendulumSystem) : bool * PendulumSystem :=
  match selected_pendulum s with
  | Some l =>
      match heap s l with
      | Some q => (false, set_object s l (end_drag q))
      | None => (false, s)
      end
  | None => (false, s)
  end.

(** [SimulationScene.remove_selected_pendulum()]; the first key is
    [next(iter(self.pendulum_system.pendulums.keys()))]. *)
Definition remove_selected_pendulum (s : PendulumSystem) : PendulumSystem :=
  match selected_pendulum s with
  | Some l =>
      match heap s l with
      | Some q =>
          if (1 <? length (pendulums s))%nat then
            let s1 := snd (remove_pendulum s (pendulum_id q)) in
            if (0 <? length (pendulums s1))%nat then
              match pendulums s1 with
              | (first_id, _) :: _ => snd (select_pendulum s1 first_id)
              | [] => s1
              end
            else s1
          else s
      | None => s
      end
  | None => s
  end.

(** The colour list of [SimulationScene.add_pendulum()]. *)
Definition path_colors : list Color :=
  [(0, 128, 255); (255, 0, 0); (0, 255, 0); (255, 255, 0); (255, 0, 255); (0, 255, 255)]%Z.

(** The offset of a new pendulum from the current count: [(0, 0)] for the
    first one, else [((count % 3) * 20 - 20, (count // 3) * 20 - 20)]. *)
Definition add_pendulum_offset (count : Z) : Z * Z :=
  if (count >? 0)%Z then ((count mod 3) * 20 - 20, (count / 3) * 20 - 20)%Z else (0, 0)%Z.

(** [SimulationScene.add_pendulum()]; [defaults] holds the values read by
    [config_manager.get_setting("simulation.default_...", ...)]. Returns
    the new object and the system ([None]: an exception was raised). *)
Definition add_pendulum (defaults : PendulumParams) (s : PendulumSystem)
  : option (Loc * PendulumSystem) :=
  let count := Z.of_nat (length (pendulums s)) in
  let offset := add_pendulum_offset count in
  let color_index := (count mod Z.of_nat (length path_colors))%Z in
  c <- nth_error path_colors (Z.to_nat color_index) ;;
  create_pendulum s
    (mkParams (IZR (fst offset)) (IZR (snd offset))
       (pp_length1 defaults) (pp_length2 defaults) (pp_mass1 defaults) (pp_mass2 defaults)
       (pp_angle1 defaults) (pp_angle2 defaults) (pp_velocity1 defaults) (pp_velocity2 defaults)
       c (pp_path_duration defaults) (pp_show_wire defaults)).

(** ** ConfigManager (app/config/config_manager.py) *)

Local Set Warnings "-register-all".

(** The JSON values a setting can hold. *)
Inductive SettingValue :=
| SNone
| SBool (b : bool)
| SNum (r : R)
| SStr (str : string)
| SList (xs : list SettingValue).

(** A dict with string keys, in insertion order. *)
Fixpoint str_dict_get {V : Type} (d : list (string * V)) (k : string) : option V :=
  match d with
  | [] => None
  | (k', v) :: r => if String.eqb k' k then Some v else str_dict_get r k
  end.

Fixpoint str_dict_set {V : Type} (d : list (string * V)) (k : string) (v : V)
  : list (string * V) :=
  match d with
  | [] => [(k, v)]
  | (k', v') :: r => if String.eqb k' k then (k', v) :: r else (k', v') :: str_dict_set r k v
  end.

Definition Settings : Type := list (string * SettingValue).

(** [ConfigManager.get_setting(key, default)]: [self.settings.get(key, default)]. *)
Definition get_setting (settings : Settings) (key : string) (default : SettingValue)
  : SettingValue :=
  match str_dict_get settings key with Some v => v | None => default end.

(** [ConfigManager.set_setting(key, value)]. *)
Definition set_setting (settings : Settings) (key : string) (value : SettingValue) : Settings :=
  str_dict_set settings key value.

(** The loop [for key, value in loaded_settings.items(): self.settings[key] = value]
    of [ConfigManager.load_configuration()]. *)
Definition merge_loaded (settings loaded : Settings) : Settings :=
  fold_left (fun acc kv => str_dict_set acc (fst kv) (snd kv)) loaded settings.

(** The defaults set by [ConfigManager.initialize()]. *)
Definition default_settings : Settings :=
  [("theme", SStr "light"); ("screen_width", SNum 1024); ("screen_height", SNum 768);
   ("fps", SNum 60); ("show_grid", SBool true);
   ("simulation.gravity", SNum 9.81);
   ("simulation.default_length1", SNum 120); ("simulation.default_length2", SNum 120);
   ("simulation.default_mass1", SNum 10); ("simulation.default_mass2", SNum 10);
   ("simulation.default_angle1", SNum 0.8); ("simulation.default_angle2", SNum 0.5);
   ("simulation.default_velocity1", SNum 0); ("simulation.default_velocity2", SNum 0);
   ("simulation.default_path_color", SList [SNum 0; SNum 128; SNum 255]);
   ("simulation.default_path_duration", SNum 2.0);
   ("simulation.default_show_wire", SBool true)]%string.

(** [ConfigManager.initialize()]: [file] is the parsed content of the
    configuration file, a JSON object, when it exists and parses ([json.load]), [None]
    otherwise (missing file, or an error caught by [load_configuration]). *)
Definition config_initialize (file : option Settings) : Settings :=
  match file with
  | Some loaded => merge_loaded default_settings loaded
  | None => default_settings
  end.

Record Theme := mkTheme {
  background : Color; text : Color; primary : Color;
  secondary : Color; accent : Color; grid : Color }.

Definition light_theme : Theme :=
  (mkTheme (240, 240, 245) (30, 30, 30) (0, 120, 215) (0, 170, 170) (200, 0, 100)
           (200, 200, 200))%Z.

Definition dark_theme : Theme :=
  (mkTheme (30, 30, 35) (220, 220, 220) (0, 150, 255) (0, 200, 200) (255, 50, 100)
           (60, 60, 60))%Z.

Definition themes : list (string * Theme) :=
  [("light", light_theme); ("dark", dark_theme)]%string.

(** [ConfigManager.apply_theme(theme_name)]: the new settings and the
    returned colour scheme [self.themes.get(theme_name, self.themes["light"])]. *)
Definition apply_theme (settings : Settings) (theme_name : string) : Settings * Theme :=
  let settings := set_setting settings "theme"%string (SStr theme_name) in
  let theme_colors :=
    match str_dict_get themes theme_name with Some t => t | None => light_theme end in
  (settings, theme_colors).

(** A body hanging straight down at rest. *)
Definition hanging_pendulum : Pendulum :=
  calculate_cartesian_positions (set_angle2 (set_angle1 (new_pendulum 0) 0) 0).

(** A body whose first, respectively second, bob is being dragged. *)
Definition first_bob_dragged : Pendulum := set_drag_state sample_pendulum true 1.

Definition second_bob_dragged : Pendulum := set_drag_state hanging_pendulum true 2.

(** A sequence of calls on the system; the first raised exception ends it. *)
Fixpoint run_system_ops (os : list system_op) (s : PendulumSystem) : option PendulumSystem :=
  match os with
  | [] => Some s
  | o :: rest => s1 <- run_system_op o s ;; run_system_ops rest s1
  end.

(** A configuration file that only sets the theme. *)
Definition dark_config_file : Settings := [("theme"%string, SStr "dark"%string)].

(** A system holding two pendulums, ids 0 and 1, the first one selected. *)
Definition two_pendulum_system : PendulumSystem :=
  mkSystem [(0%Z, 0%nat); (1%Z, 1%nat)]
    (heap_set (heap_set (fun _ => None) 0%nat sample_pendulum) 1%nat
              (calculate_cartesian_positions (new_pendulum 1)))
    (Some 0%nat) 2%Z 2%nat.

(** ** Lemmas on the Python primitives *)

Lemma py_div_some x y z : py_div x y = Some z -> y <> 0 /\ z = x / y.
Proof. unfold py_div. destruct (Req_EM_T y 0); intros H; inversion H; auto. Qed.

Lemma py_div_none x y : py_div x y = None -> y = 0.
Proof. unfold py_div. destruct (Req_EM_T y 0); intros H; [assumption | discriminate]. Qed.

Lemma two_pi_pos : 0 < 2 * PI.
Proof. pose proof PI_RGT_0. lra. Qed.

Lemma py_mod_2pi x : py_mod x (2 * PI) = Some (x - 2 * PI * IZR (Int_part (x / (2 * PI)))).
Proof.
  unfold py_mod. destruct (Req_EM_T (2 * PI) 0) as [E | _]; [|reflexivity].
  pose proof two_pi_pos. lra.
Qed.

(** With a positive divisor the Python modulo lies in [[0, y)]. *)
Lemma py_mod_range x y r : 0 < y -> py_mod x y = Some r -> 0 <= r < y.
Proof.
  intros Hy. unfold py_mod. destruct (Req_EM_T y 0); [lra|]. intros H; inversion H; subst.
  destruct (base_Int_part (x / y)) as [Hlo Hhi].
  assert (Hq : x = y * (x / y)) by (field; lra).
  split.
  - assert (y * IZR (Int_part (x / y)) <= y * (x / y)) by (apply Rmult_le_compat_l; lra). lra.
  - assert (y * (x / y) < y * (IZR (Int_part (x / y)) + 1)) by (apply Rmult_lt_compat_l; lra). lra.
Qed.

(** ** Lemmas on the integrator *)

Lemma calculate_acceleration1_spec p g a :
  calculate_acceleration1 p g = Some a ->
  a = spec_accel1 g (mass1 p) (mass2 p) (length1 p) (length2 p)
                  (angle1 p) (angle2 p) (velocity1 p) (velocity2 p).
Proof.
  unfold calculate_acceleration1. intros H. apply py_div_some in H as [_ ->].
  unfold spec_accel1, Rdiv. f_equal; ring.
Qed.

Lemma calculate_acceleration2_spec p g a :
  calculate_acceleration2 p g = Some a ->
  a = spec_accel2 g (mass1 p) (mass2 p) (length1 p) (length2 p)
                  (angle1 p) (angle2 p) (velocity1 p) (velocity2 p).
Proof.
  unfold calculate_acceleration2. intros H. apply py_div_some in H as [_ ->].
  unfold spec_accel2, Rdiv. f_equal; ring.
Qed.

Lemma calculate_acceleration1_none p g :
  calculate_acceleration1 p g = None ->
  length1 p * spec_bracket (mass1 p) (mass2 p) (angle1 p) (angle2 p) = 0.
Proof. unfold calculate_acceleration1. intros H. apply py_div_none in H. exact H. Qed.

Lemma calculate_acceleration2_none p g :
  calculate_acceleration2 p g = None ->
  length2 p * spec_bracket (mass1 p) (mass2 p) (angle1 p) (angle2 p) = 0.
Proof. unfold calculate_acceleration2. intros H. apply py_div_none in H. exact H. Qed.

Lemma normalize_angle_shift a : exists k : Z, normalize_angle a = a + 2 * PI * IZR k.
Proof.
  exists (- Int_part ((a + PI) / (2 * PI)))%Z. unfold normalize_angle.
  rewrite opp_IZR. ring.
Qed.

Lemma normalize_angle_range a : - PI <= normalize_angle a < PI.
Proof.
  pose proof (py_mod_range (a + PI) (2 * PI) _ two_pi_pos (py_mod_2pi (a + PI))).
  unfold normalize_angle. lra.
Qed.

(** The successful path of [_velocity_verlet_step], written out. *)
Lemma velocity_verlet_step_some p dt g p' :
  velocity_verlet_step p dt g = Some p' ->
  exists acc1 acc2 accn1 accn2,
    calculate_acceleration1 p g = Some acc1 /\
    calculate_acceleration2 p g = Some acc2 /\
    let hv1 := velocity1 p + 0.5 * acc1 * dt in
    let hv2 := velocity2 p + 0.5 * acc2 * dt in
    let q := set_angle2 (set_angle1 (set_velocity2 (set_velocity1 p hv1) hv2)
                           (normalize_angle (angle1 p + hv1 * dt)))
                        (normalize_angle (angle2 p + hv2 * dt)) in
    calculate_acceleration1 q g = Some accn1 /\
    calculate_acceleration2 q g = Some accn2 /\
    p' = set_velocity2 (set_velocity1 q (hv1 + 0.5 * accn1 * dt)) (hv2 + 0.5 * accn2 * dt).
Proof.
  unfold velocity_verlet_step.
  destruct (calculate_acceleration1 p g) as [acc1|] eqn:A1; [|discriminate].
  destruct (calculate_acceleration2 p g) as [acc2|] eqn:A2; [|discriminate].
  rewrite !py_mod_2pi. cbn [velocity1 velocity2 angle1 angle2 set_velocity1 set_velocity2
                             set_angle1 set_angle2].
  match goal with
  | |- match calculate_acceleration1 ?q g with _ => _ end = _ -> _ =>
      destruct (calculate_acceleration1 q g) as [accn1|] eqn:N1; [|discriminate]
  end.
  match goal with
  | |- match calculate_acceleration2 ?q g with _ => _ end = _ -> _ =>
      destruct (calculate_acceleration2 q g) as [accn2|] eqn:N2; [|discriminate]
  end.
  intros H. injection H as <-.
  exists acc1, acc2, accn1, accn2. unfold normalize_angle. repeat split; auto.
Qed.

Lemma cos_shift x k : cos (x + 2 * PI * IZR k) = cos x.
Proof.
  assert (Hn : forall y (n : nat), cos (y + 2 * PI * INR n) = cos y).
  { intros y n. rewrite <- (cos_period y n). f_equal. ring. }
  destruct k as [|q|q].
  - f_equal. simpl. ring.
  - replace (IZR (Z.pos q)) with (INR (Pos.to_nat q))
      by (rewrite INR_IZR_INZ, positive_nat_Z; reflexivity).
    apply Hn.
  - rewrite <- (Hn (x + 2 * PI * IZR (Z.neg q)) (Pos.to_nat q)).
    f_equal. rewrite INR_IZR_INZ, positive_nat_Z, IZR_NEG. ring.
Qed.

Lemma spec_bracket_shift m1 m2 a1 a2 k1 k2 :
  spec_bracket m1 m2 (a1 + 2 * PI * IZR k1) (a2 + 2 * PI * IZR k2) = spec_bracket m1 m2 a1 a2.
Proof.
  unfold spec_bracket.
  replace (2 * (a1 + 2 * PI * IZR k1) - 2 * (a2 + 2 * PI * IZR k2))
    with ((2 * a1 - 2 * a2) + 2 * PI * IZR (2 * k1 - 2 * k2))
    by (rewrite minus_IZR, !mult_IZR; simpl; ring).
  rewrite cos_shift. reflexivity.
Qed.

Lemma update_some_scheme p dt g p' :
  dragging p = false -> update p dt g = Some p' -> verlet_scheme p dt g p'.
Proof.
  intros Hd. unfold update. rewrite Hd.
  destruct (velocity_verlet_step p dt g) as [q|] eqn:E; [|discriminate].
  intros H. injection H as <-.
  apply velocity_verlet_step_some in E
    as (acc1 & acc2 & accn1 & accn2 & A1 & A2 & N1 & N2 & ->).
  apply calculate_acceleration1_spec in A1, N1.
  apply calculate_acceleration2_spec in A2, N2.
  cbn in A1, A2, N1, N2 |- *. unfold verlet_scheme. cbn.
  subst acc1 acc2 accn1 accn2.
  destruct (normalize_angle_shift (angle1 p + (velocity1 p + 0.5 * spec_accel1 g (mass1 p) (mass2 p)
      (length1 p) (length2 p) (angle1 p) (angle2 p) (velocity1 p) (velocity2 p) * dt) * dt))
    as [k1 K1].
  destruct (normalize_angle_shift (angle2 p + (velocity2 p + 0.5 * spec_accel2 g (mass1 p) (mass2 p)
      (length1 p) (length2 p) (angle1 p) (angle2 p) (velocity1 p) (velocity2 p) * dt) * dt))
    as [k2 K2].
  split; [exists k1, k2; rewrite K1, K2; split; ring|].
  unfold same_configuration; cbn. repeat split; reflexivity.
Qed.

(** [update] raises only when one of the denominators of the scheme is zero:
    at the old angles, or at the stepped angles (the bracket does not see
    the reduction modulo [2 PI]). *)
Lemma update_none_scheme p dt g :
  dragging p = false -> update p dt g = None ->
  let m1 := mass1 p in let m2 := mass2 p in
  let l1 := length1 p in let l2 := length2 p in
  let a1 := angle1 p in let a2 := angle2 p in
  let v1 := velocity1 p in let v2 := velocity2 p in
  let hv1 := v1 + 0.5 * spec_accel1 g m1 m2 l1 l2 a1 a2 v1 v2 * dt in
  let hv2 := v2 + 0.5 * spec_accel2 g m1 m2 l1 l2 a1 a2 v1 v2 * dt in
  l1 * spec_bracket m1 m2 a1 a2 = 0 \/ l2 * spec_bracket m1 m2 a1 a2 = 0 \/
  l1 * spec_bracket m1 m2 (a1 + hv1 * dt) (a2 + hv2 * dt) = 0 \/
  l2 * spec_bracket m1 m2 (a1 + hv1 * dt) (a2 + hv2 * dt) = 0.
Proof.
  intros Hd. unfold update. rewrite Hd.
  destruct (velocity_verlet_step p dt g) as [q|] eqn:E; [discriminate|]. intros _.
  unfold velocity_verlet_step in E.
  destruct (calculate_acceleration1 p g) as [acc1|] eqn:A1;
    [|apply calculate_acceleration1_none in A1; cbn; tauto].
  destruct (calculate_acceleration2 p g) as [acc2|] eqn:A2;
    [|apply calculate_acceleration2_none in A2; cbn; tauto].
  apply calculate_acceleration1_spec in A1. apply calculate_acceleration2_spec in A2.
  rewrite !py_mod_2pi in E.
  cbn [velocity1 velocity2 angle1 angle2 set_velocity1 set_velocity2
       set_angle1 set_angle2] in E.
  fold (normalize_angle (angle1 p + (velocity1 p + 0.5 * acc1 * dt) * dt)) in E.
  fold (normalize_angle (angle2 p + (velocity2 p + 0.5 * acc2 * dt) * dt)) in E.
  destruct (normalize_angle_shift (angle1 p + (velocity1 p + 0.5 * acc1 * dt) * dt)) as [k1 K1].
  destruct (normalize_angle_shift (angle2 p + (velocity2 p + 0.5 * acc2 * dt) * dt)) as [k2 K2].
  rewrite K1, K2 in E. subst acc1 acc2. cbn zeta. right; right.
  match type of E with
  | match calculate_acceleration1 ?q g with _ => _ end = None =>
      destruct (calculate_acceleration1 q g) eqn:N1;
      [|apply calculate_acceleration1_none in N1; cbn in N1;
        rewrite spec_bracket_shift in N1; left; exact N1]
  end.
  match type of E with
  | match calculate_acceleration2 ?q g with _ => _ end = None =>
      destruct (calculate_acceleration2 q g) eqn:N2;
      [discriminate|apply calculate_acceleration2_none in N2; cbn in N2;
        rewrite spec_bracket_shift in N2; right; exact N2]
  end.
Qed.

(** With no drag in progress, the angles after a step lie in [[-PI, PI)]. *)
Lemma update_angles_range p dt g p' :
  dragging p = false -> update p dt g = Some p' ->
  (- PI <= angle1 p' < PI) /\ (- PI <= angle2 p' < PI).
Proof.
  intros Hd. unfold update. rewrite Hd.
  destruct (velocity_verlet_step p dt g) as [q|] eqn:E; [|discriminate].
  intros H. injection H as <-.
  apply velocity_verlet_step_some in E as (acc1 & acc2 & accn1 & accn2 & _ & _ & _ & _ & ->).
  cbn. split; apply normalize_angle_range.
Qed.

(** The denominator bracket is positive for positive rod length and mass
    and a non-negative second mass. *)
Lemma denominator_pos l m1 m2 a1 a2 :
  0 < l -> 0 < m1 -> 0 <= m2 -> 0 < l * spec_bracket m1 m2 a1 a2.
Proof.
  intros Hl H1 H2. unfold spec_bracket.
  pose proof (COS_bound (2 * a1 - 2 * a2)) as [_ Hc].
  apply Rmult_lt_0_compat; [assumption|].
  assert (m2 * cos (2 * a1 - 2 * a2) <= m2 * 1) by (apply Rmult_le_compat_l; lra). lra.
Qed.

(** ** Lemmas on [int()] and on [set_duration] *)

Lemma Int_part_unique r z : IZR z <= r < IZR z + 1 -> Int_part r = z.
Proof.
  intros [H1 H2]. unfold Int_part.
  rewrite <- (tech_up r (z + 1)); [lia| |]; rewrite plus_IZR; simpl; lra.
Qed.

Lemma py_int_nonneg x : 0 <= x -> py_int x = Int_part x.
Proof. intros H. unfold py_int. destruct (Rle_dec 0 x); [reflexivity | contradiction]. Qed.

Lemma py_int_small_neg x : -1 < x < 0 -> py_int x = 0%Z.
Proof.
  intros H. unfold py_int. destruct (Rle_dec 0 x); [lra|].
  rewrite (Int_part_unique (- x) 0); [reflexivity | simpl; lra].
Qed.

Lemma py_int_le_minus_one x : x <= -1 -> (py_int x < 0)%Z.
Proof.
  intros H. unfold py_int. destruct (Rle_dec 0 x); [lra|].
  destruct (base_Int_part (- x)) as [_ Hb].
  assert (0 < Int_part (- x))%Z by (apply lt_IZR; simpl; lra). lia.
Qed.

(** The copy loop keeps a prefix of the old points. *)
Lemma copy_points_prefix {A : Type} (mp : Z) (i : nat) (pts acc : list A) :
  (0 <= mp)%Z -> (length acc + (Z.to_nat mp - i) <= Z.to_nat mp)%nat ->
  copy_points mp i pts acc = acc ++ firstn (Z.to_nat mp - i) pts.
Proof.
  revert i acc. induction pts as [|pt rest IH]; intros i acc Hmp Hlen; cbn.
  - rewrite firstn_nil, app_nil_r. reflexivity.
  - destruct (Z.of_nat i <? mp)%Z eqn:Hi.
    + apply Z.ltb_lt in Hi.
      assert (Hn : (Z.to_nat mp - i = S (Z.to_nat mp - S i))%nat) by lia.
      unfold deque_append.
      replace (Z.of_nat (length (acc ++ [pt])) >? mp)%Z with false
        by (symmetry; rewrite Z.gtb_ltb; apply Z.ltb_ge; rewrite length_app; cbn; lia).
      rewrite IH by (try rewrite length_app; cbn; lia).
      rewrite Hn, <- app_assoc. reflexivity.
    + apply Z.ltb_ge in Hi.
      replace (Z.to_nat mp - i)%nat with 0%nat by lia.
      rewrite IH by lia. replace (Z.to_nat mp - S i)%nat with 0%nat by lia. reflexivity.
Qed.

Lemma set_duration_spec (t : PathTracer) (seconds fps : R) :
  let mp := py_int (seconds * fps) in
  ((mp < 0)%Z -> set_duration t seconds fps = None) /\
  ((0 <= mp)%Z -> set_duration t seconds fps =
     Some (mkPathTracer (firstn (Z.to_nat mp) (points t)) mp (color t) (visible t))).
Proof.
  cbv zeta. unfold set_duration, new_deque. split; intros H.
  - apply Z.ltb_lt in H. rewrite H. reflexivity.
  - replace (py_int (seconds * fps) <? 0)%Z with false by (symmetry; apply Z.ltb_ge; lia).
    rewrite copy_points_prefix by (cbn; lia). rewrite Nat.sub_0_r. reflexivity.
Qed.

(** ** Lemmas on [initialize] and [reset] *)


Lemma initialize_body_state params q r :
  initialize params q = Some r ->
  body_state r = params_body_state params /\ initial_state r = Some params.
Proof.
  unfold initialize, tracer_initialize.
  destruct (new_deque _) as [pts|]; [|discriminate].
  intros H. injection H as <-. split; reflexivity.
Qed.

(** Whether [initialize(params)] raises depends on [params] only. *)
Lemma initialize_some_any params q q' r :
  initialize params q = Some r -> exists r', initialize params q' = Some r'.
Proof.
  unfold initialize, tracer_initialize.
  destruct (new_deque _) as [pts|]; [|discriminate].
  intros _. eexists. reflexivity.
Qed.

Lemma update_initial_state p dt g p' :
  update p dt g = Some p' -> initial_state p' = initial_state p.
Proof.
  destruct (dragging p) eqn:Hd.
  - unfold update. rewrite Hd. intros H. injection H as <-. reflexivity.
  - intros H. apply (update_some_scheme _ _ _ _ Hd) in H.
    destruct H as (_ & _ & _ & _ & _ & _ & _ & (_ & _ & S & _)). exact S.
Qed.

(** Every call keeps the stored parameters, [reset] included. *)
Lemma run_pendulum_op_initial_state o q q' :
  run_pendulum_op o q = Some q' -> initial_state q' = initial_state q.
Proof.
  destruct o; cbn; intros H.
  - eapply update_initial_state; eassumption.
  - injection H as <-. unfold set_length. destruct (_ =? _)%Z; reflexivity.
  - injection H as <-. unfold set_mass. destruct (_ =? _)%Z; reflexivity.
  - injection H as <-. unfold set_angle. destruct (_ =? _)%Z; reflexivity.
  - injection H as <-. unfold set_velocity. destruct (_ =? _)%Z; reflexivity.
  - injection H as <-. reflexivity.
  - injection H as <-. unfold start_drag.
    destruct (near_bob _ _ _ _ _); [reflexivity|]. destruct (near_bob _ _ _ _ _); reflexivity.
  - injection H as <-. unfold update_drag. destruct (negb (dragging q)); [reflexivity|].
    cbv zeta. destruct (drag_joint q =? 1)%Z; [|destruct (drag_joint q =? 2)%Z];
      repeat match goal with |- context [Rlt_dec ?a ?b] => destruct (Rlt_dec a b) end;
      reflexivity.
  - injection H as <-. reflexivity.
  - unfold reset in H. destruct (initial_state q) as [params|] eqn:E.
    + exact (proj2 (initialize_body_state _ _ _ H)).
    + injection H as <-. exact E.
  - injection H as <-. unfold render_trace. destruct (negb (dragging q)); reflexivity.
  - destruct (set_duration _ _ _); [|discriminate]. injection H as <-. reflexivity.
  - injection H as <-. reflexivity.
Qed.

Lemma reachable_initial_state p q : reachable p q -> initial_state q = initial_state p.
Proof.
  induction 1 as [|q o q' _ IH Hop]; [reflexivity|].
  rewrite (run_pendulum_op_initial_state _ _ _ Hop). exact IH.
Qed.

(** ** Lemmas on the dict and on [PendulumSystem] *)

Lemma dict_get_In d k l : dict_get d k = Some l -> In (k, l) d.
Proof.
  induction d as [|[k' v] r IH]; cbn; [discriminate|].
  destruct (k' =? k)%Z eqn:E; intros H.
  - apply Z.eqb_eq in E. subst. injection H as <-. left. reflexivity.
  - right. apply IH, H.
Qed.

Lemma dict_get_None d k l : dict_get d k = None -> ~ In (k, l) d.
Proof.
  induction d as [|[k' v] r IH]; cbn; [auto|].
  destruct (k' =? k)%Z eqn:E; intros H; [discriminate|].
  apply Z.eqb_neq in E. intros [F|F]; [injection F; intros; subst; contradiction|].
  exact (IH H F).
Qed.

Lemma In_keys {A B : Type} (k : A) (l : B) d : In (k, l) d -> In k (map fst d).
Proof. intros H. apply (in_map fst) in H. exact H. Qed.

(** Setting a key that is not present appends it. *)
Lemma dict_set_new d k v : ~ In k (map fst d) -> dict_set d k v = d ++ [(k, v)].
Proof.
  induction d as [|[k' v'] r IH]; cbn; intros H; [reflexivity|].
  destruct (k' =? k)%Z eqn:E.
  - apply Z.eqb_eq in E. subst. exfalso. apply H. left. reflexivity.
  - rewrite IH; [reflexivity|]. intros F. apply H. right. exact F.
Qed.

Lemma dict_del_sub d k x : In x (dict_del d k) -> In x d.
Proof.
  induction d as [|[k' v'] r IH]; cbn; [auto|].
  destruct (k' =? k)%Z; [right; assumption|].
  intros [F|F]; [left; assumption|right; apply IH, F].
Qed.

Lemma dict_del_keep d k k' l : In (k', l) d -> k' <> k -> In (k', l) (dict_del d k).
Proof.
  induction d as [|[k0 v0] r IH]; cbn; [auto|].
  destruct (k0 =? k)%Z eqn:E.
  - apply Z.eqb_eq in E. subst. intros [F|F] Hne; [injection F; intros; subst; contradiction|exact F].
  - intros [F|F] Hne; [left; exact F|right; apply IH; assumption].
Qed.

Lemma dict_del_nodup d k : NoDup (map fst d) -> NoDup (map fst (dict_del d k)).
Proof.
  induction d as [|[k0 v0] r IH]; cbn; [auto|].
  intros H. inversion H as [|x xs Hn Hd]; subst.
  destruct (k0 =? k)%Z; [exact Hd|]. cbn. constructor; [|apply IH, Hd].
  intros F. apply Hn. apply in_map_iff in F as ([k1 v1] & E & F). cbn in E. subst.
  apply dict_del_sub in F. apply (In_keys _ _ _ F).
Qed.

Lemma dict_del_get d k : NoDup (map fst d) -> dict_get (dict_del d k) k = None.
Proof.
  induction d as [|[k0 v0] r IH]; cbn; [auto|].
  intros H. inversion H as [|x xs Hn Hd]; subst.
  destruct (k0 =? k)%Z eqn:E.
  - apply Z.eqb_eq in E. subst.
    destruct (dict_get r k) as [l|] eqn:G; [|reflexivity].
    exfalso. apply Hn. apply (In_keys _ _ _ (dict_get_In _ _ _ G)).
  - cbn. rewrite E. apply IH, Hd.
Qed.

Lemma update_pendulum_id p dt g p' :
  update p dt g = Some p' -> pendulum_id p' = pendulum_id p.
Proof.
  destruct (dragging p) eqn:Hd.
  - unfold update. rewrite Hd. intros H. injection H as <-. reflexivity.
  - intros H. apply (update_some_scheme _ _ _ _ Hd) in H.
    destruct H as (_ & _ & _ & _ & _ & _ & _ & (S & _)). exact S.
Qed.

(** Updating all pendulums keeps every object and its id. *)
Lemma update_all_ids d h dt g h' :
  update_all d h dt g = Some h' ->
  forall l q, h l = Some q -> exists q', h' l = Some q' /\ pendulum_id q' = pendulum_id q.
Proof.
  revert h. induction d as [|[k l0] r IH]; cbn; intros h H l q Hl.
  - injection H as <-. eauto.
  - destruct (h l0) as [q0|] eqn:H0; [|discriminate].
    destruct (update q0 dt g) as [q0'|] eqn:U; [|discriminate].
    unfold heap_set in H.
    destruct (Nat.eqb l l0) eqn:El.
    + apply Nat.eqb_eq in El. subst. rewrite H0 in Hl. injection Hl as <-.
      destruct (IH _ H l0 q0') as (q' & Q & I); [unfold heap_set; rewrite Nat.eqb_refl; reflexivity|].
      exists q'. split; [exact Q|]. rewrite I. eapply update_pendulum_id. exact U.
    + apply (IH _ H l q). unfold heap_set. rewrite El. exact Hl.
Qed.

Lemma scan_at_In h d pos c l : scan_at h d pos c = Some l -> exists k, In (k, l) d.
Proof.
  induction d as [|[k l0] r IH]; cbn; [discriminate|].
  destruct (h l0) as [q|]; [destruct (pendulum_at q pos c)|]; intros H.
  - injection H as <-. exists k. left. reflexivity.
  - destruct (IH H) as [k' K]. exists k'. right. exact K.
  - destruct (IH H) as [k' K]. exists k'. right. exact K.
Qed.

Lemma initialize_pendulum_id params q r :
  initialize params q = Some r -> pendulum_id r = pendulum_id q.
Proof.
  unfold initialize, tracer_initialize.
  destruct (new_deque _) as [pts|]; [|discriminate].
  intros H. injection H as <-. reflexivity.
Qed.

Ltac inv_split := refine (conj _ (conj _ (conj _ _))); cbn.

Lemma system_inv_new : system_inv new_system.
Proof. inv_split; [apply NoDup_nil|contradiction|contradiction|discriminate]. Qed.

Lemma system_inv_preserved o s s' :
  system_inv s -> run_system_op o s = Some s' -> system_inv s'.
Proof.
  intros Hinv. pose proof Hinv as (Hnd & Hobj & Hbnd & Hsel).
  destruct o; cbn; intros H.
  - (* initialize *)
    injection H as <-. inv_split; [apply NoDup_nil|contradiction|contradiction|discriminate].
  - (* update *)
    unfold system_update in H.
    destruct (update_all (pendulums s) (heap s) dt gravity) as [h'|] eqn:U; [|discriminate].
    injection H as <-. inv_split; [exact Hnd| |exact Hbnd|exact Hsel].
    intros k l Hin. destruct (Hobj k l Hin) as (q & Q & I).
    destruct (update_all_ids _ _ _ _ _ U l q Q) as (q' & Q' & I').
    exists q'. split; [exact Q'|]. congruence.
  - (* create_pendulum *)
    unfold create_pendulum in H.
    destruct (initialize params (new_pendulum (next_pendulum_id s))) as [q|] eqn:Hi;
      [|discriminate].
    injection H as <-.
    assert (Fresh : ~ In (next_pendulum_id s) (map fst (pendulums s))).
    { intros F. apply in_map_iff in F as ([k l] & E & F). cbn in E. subst.
      destruct (Hbnd _ _ F) as [_ B]. lia. }
    inv_split; rewrite (dict_set_new _ _ _ Fresh).
    + rewrite map_app. cbn. eapply Permutation_NoDup;
        [apply Permutation_cons_append|]. constructor; assumption.
    + intros k l Hin. apply in_app_or in Hin as [Hin|[Hin|[]]].
      * destruct (Hobj k l Hin) as (q0 & Q & I). exists q0. unfold heap_set.
        destruct (Hbnd _ _ Hin) as [B _].
        replace (Nat.eqb l (next_loc s)) with false by (symmetry; apply Nat.eqb_neq; lia).
        auto.
      * injection Hin as <- <-. exists q. unfold heap_set. rewrite Nat.eqb_refl.
        split; [reflexivity|]. rewrite (initialize_pendulum_id _ _ _ Hi). reflexivity.
    + intros k l Hin. apply in_app_or in Hin as [Hin|[Hin|[]]];
        [destruct (Hbnd _ _ Hin); split; lia|injection Hin as <- <-; split; lia].
    + intros l Hl. injection Hl as <-. exists (next_pendulum_id s).
      apply in_or_app. right. left. reflexivity.
  - (* remove_pendulum *)
    injection H as <-. unfold remove_pendulum.
    destruct (dict_mem (pendulums s) pid); [|exact Hinv].
    inv_split.
    + apply dict_del_nodup, Hnd.
    + intros k l Hin. apply Hobj, (dict_del_sub _ pid), Hin.
    + intros k l Hin. apply (Hbnd k l), (dict_del_sub _ pid), Hin.
    + intros l Hl. destruct (selected_pendulum s) as [l0|] eqn:S; [|discriminate].
      destruct (Hsel l0 S) as [k0 K0]. cbn in Hl.
      destruct (Hobj _ _ K0) as (q0 & Q0 & I0). rewrite Q0 in Hl.
      destruct (pendulum_id q0 =? pid)%Z eqn:E; [discriminate|].
      injection Hl as <-. apply Z.eqb_neq in E. exists k0.
      apply dict_del_keep; [exact K0|]. rewrite <- I0. exact E.
  - (* select_pendulum *)
    injection H as <-. unfold select_pendulum.
    destruct (dict_get (pendulums s) pid) as [l|] eqn:G; [|exact Hinv].
    inv_split; [exact Hnd|exact Hobj|exact Hbnd|].
    intros l' Hl. injection Hl as <-. exists pid. apply dict_get_In, G.
  - injection H as <-. exact Hinv.
  - injection H as <-. exact Hinv.
  - injection H as <-. exact Hinv.
  - (* clear *)
    injection H as <-. inv_split; [apply NoDup_nil|contradiction|contradiction|discriminate].
  - (* try_select_pendulum_at_position *)
    injection H as <-. unfold try_select_pendulum_at_position.
    destruct (scan_at (heap s) (pendulums s) position screen_center) as [l|] eqn:F;
      [|exact Hinv].
    inv_split; [exact Hnd|exact Hobj|exact Hbnd|].
    intros l' Hl. injection Hl as <-. apply (scan_at_In _ _ _ _ _ F).
Qed.

Lemma dict_get_NoDup d k l : NoDup (map fst d) -> In (k, l) d -> dict_get d k = Some l.
Proof.
  induction d as [|[k0 v0] r IH]; cbn; [contradiction|].
  intros H. inversion H as [|x xs Hn Hd]; subst.
  destruct (k0 =? k)%Z eqn:E.
  - apply Z.eqb_eq in E. subst. intros [F|F]; [injection F as ->; reflexivity|].
    exfalso. apply Hn. apply (In_keys _ _ _ F).
  - apply Z.eqb_neq in E. intros [F|F]; [injection F; intros; subst; contradiction|].
    apply IH; assumption.
Qed.

(** * Properties of the engine *)


(** ** Integration step *)

(** C1: with no drag in progress, [update(dt, gravity)] performs exactly
    the scheme: old accelerations from the closed-form formulas, half-step
    velocities, full-step angles reduced modulo [2 PI], new accelerations
    from the new angles and half-step velocities, completed velocities, and
    Cartesian offsets recomputed from the new angles and lengths; nothing
    else changes. It raises (ZeroDivisionError) only when a denominator of
    the formulas is zero. *)
Theorem update_performs_verlet_scheme (p : Pendulum) (dt gravity : R) :
  dragging p = false ->
  (forall p', update p dt gravity = Some p' -> verlet_scheme p dt gravity p') /\
  (update p dt gravity = None ->
   let m1 := mass1 p in let m2 := mass2 p in
   let l1 := length1 p in let l2 := length2 p in
   let a1 := angle1 p in let a2 := angle2 p in
   let v1 := velocity1 p in let v2 := velocity2 p in
   let hv1 := v1 + 0.5 * spec_accel1 gravity m1 m2 l1 l2 a1 a2 v1 v2 * dt in
   let hv2 := v2 + 0.5 * spec_accel2 gravity m1 m2 l1 l2 a1 a2 v1 v2 * dt in
   l1 * spec_bracket m1 m2 a1 a2 = 0 \/ l2 * spec_bracket m1 m2 a1 a2 = 0 \/
   l1 * spec_bracket m1 m2 (a1 + hv1 * dt) (a2 + hv2 * dt) = 0 \/
   l2 * spec_bracket m1 m2 (a1 + hv1 * dt) (a2 + hv2 * dt) = 0).
Proof.
  intros Hd. split.
  - intros p'. apply update_some_scheme. exact Hd.
  - apply update_none_scheme. exact Hd.
Qed.

Lemma update_performs_verlet_scheme_witness :
  dragging sample_pendulum = false /\
  (forall p', update sample_pendulum 0.01 9.81 = Some p' ->
              verlet_scheme sample_pendulum 0.01 9.81 p').
Proof.
  split; [reflexivity|].
  apply (proj1 (update_performs_verlet_scheme sample_pendulum 0.01 9.81 eq_refl)).
Defined.

(** C2 (counterexample): the angle [PI] with [dt = 0] comes out of a step
    as [-PI], outside [(-PI, PI]]. *)
Lemma update_angle_can_be_minus_pi :
  ~ (forall p dt g p', dragging p = false -> update p dt g = Some p' ->
       (- PI < angle1 p' <= PI) /\ (- PI < angle2 p' <= PI)).
Proof.
  intros H.
  set (p0 := set_angle1 sample_pendulum PI).
  assert (Hd : dragging p0 = false) by reflexivity.
  destruct (update p0 0 9.81) as [p'|] eqn:E.
  - pose proof (update_angles_range _ _ _ _ Hd E) as [[Lo Hi] _].
    pose proof (H _ _ _ _ Hd E) as [[Lo' _] _].
    apply (update_some_scheme _ _ _ _ Hd) in E as [[k1 [k2 [K1 _]]] _].
    cbn in K1. rewrite Rmult_0_r, Rplus_0_r in K1. rewrite K1 in Lo', Hi.
    pose proof PI_RGT_0.
    assert (A : -1 < IZR k1) by nra. assert (B : IZR k1 < 0) by nra.
    apply lt_IZR in A, B. lia.
  - apply (update_none_scheme _ _ _ Hd) in E. cbn in E.
    destruct E as [E|[E|[E|E]]];
      match type of E with
      | ?l * spec_bracket ?m1 ?m2 ?a1 ?a2 = 0 =>
          assert (0 < l * spec_bracket m1 m2 a1 a2) by (apply denominator_pos; lra); lra
      end.
Qed.

(** C2 (amended): with no drag in progress, the angles after a step lie in
    [[-PI, PI)]. *)
Theorem update_angles_normalized (p : Pendulum) (dt gravity : R) (p' : Pendulum) :
  dragging p = false -> update p dt gravity = Some p' ->
  (- PI <= angle1 p' < PI) /\ (- PI <= angle2 p' < PI).
Proof. apply update_angles_range. Qed.

Lemma update_angles_normalized_witness :
  exists p', update sample_pendulum 0 9.81 = Some p' /\
             (- PI <= angle1 p' < PI) /\ (- PI <= angle2 p' < PI).
Proof.
  destruct (update sample_pendulum 0 9.81) as [p'|] eqn:E.
  - exists p'. split; [reflexivity|].
    exact (update_angles_normalized sample_pendulum 0 9.81 p' eq_refl E).
  - exfalso. apply (update_none_scheme sample_pendulum 0 9.81 eq_refl) in E. cbn in E.
    destruct E as [E|[E|[E|E]]];
      match type of E with
      | ?l * spec_bracket ?m1 ?m2 ?a1 ?a2 = 0 =>
          assert (0 < l * spec_bracket m1 m2 a1 a2) by (apply denominator_pos; lra); lra
      end.
Defined.

(** C4: while a drag is in progress, [update(dt, gravity)] leaves the whole
    state unchanged. *)
Theorem update_suspended_while_dragging (p : Pendulum) (dt gravity : R) :
  dragging p = true -> update p dt gravity = Some p.
Proof. intros H. unfold update. rewrite H. reflexivity. Qed.

Lemma update_suspended_while_dragging_witness :
  update (set_drag_state sample_pendulum true 2) 0.01 9.81
  = Some (set_drag_state sample_pendulum true 2).
Proof. apply update_suspended_while_dragging. reflexivity. Defined.

(** ** Setters *)

(** C3 (counterexample): [set_length(1, 0)] stores the length [0]; the
    prior length [120] is not kept. *)
Lemma set_length_stores_nonpositive :
  ~ (forall p rod v, v <= 0 ->
       length1 (set_length p rod v) = length1 p /\ length2 (set_length p rod v) = length2 p /\
       mass1 (set_mass p rod v) = mass1 p /\ mass2 (set_mass p rod v) = mass2 p).
Proof.
  intros H. destruct (H sample_pendulum 1%Z 0 (Rle_refl 0)) as [E _].
  cbn in E. lra.
Qed.

(** C3 (amended): [set_length] and [set_mass] do no validation: any value,
    also a non-positive one, is stored as given, with no error (index 1
    selects the first rod or bob, any other index the second), the other
    field is kept, and [set_length] recomputes the Cartesian offsets of
    both bobs from the stored lengths and the unchanged angles. *)
Theorem set_length_set_mass_store_any_value (p : Pendulum) (j : Z) (v : R) :
  let pl := set_length p j v in
  let pm := set_mass p j v in
  (if (j =? 1)%Z then length1 pl = v /\ length2 pl = length2 p
   else length1 pl = length1 p /\ length2 pl = v) /\
  (if (j =? 1)%Z then mass1 pm = v /\ mass2 pm = mass2 p
   else mass1 pm = mass1 p /\ mass2 pm = v) /\
  mass1 pl = mass1 p /\ mass2 pl = mass2 p /\
  length1 pm = length1 p /\ length2 pm = length2 p /\
  angle1 pl = angle1 p /\ angle2 pl = angle2 p /\
  x1 pl = length1 pl * sin (angle1 p) /\ y1 pl = length1 pl * cos (angle1 p) /\
  x2 pl = x1 pl + length2 pl * sin (angle2 p) /\ y2 pl = y1 pl + length2 pl * cos (angle2 p).
Proof.
  cbv zeta. unfold set_length, set_mass.
  destruct (j =? 1)%Z; cbn; repeat split; reflexivity.
Qed.

(** C10: an index other than 1 (0, 3, negative, ...) selects the second
    rod, bob or joint in all four setters; no index is rejected. *)
Theorem setters_other_index_second (p : Pendulum) (j : Z) (v : R) :
  j <> 1%Z ->
  length2 (set_length p j v) = v /\ length1 (set_length p j v) = length1 p /\
  mass2 (set_mass p j v) = v /\ mass1 (set_mass p j v) = mass1 p /\
  angle2 (set_angle p j v) = v /\ angle1 (set_angle p j v) = angle1 p /\
  velocity2 (set_velocity p j v) = v /\ velocity1 (set_velocity p j v) = velocity1 p.
Proof.
  intros Hj. apply Z.eqb_neq in Hj.
  unfold set_length, set_mass, set_angle, set_velocity. rewrite Hj.
  cbn. repeat split; reflexivity.
Qed.

Lemma setters_other_index_second_witness :
  length2 (set_length sample_pendulum (-3) 50) = 50 /\
  length1 (set_length sample_pendulum (-3) 50) = length1 sample_pendulum /\
  mass2 (set_mass sample_pendulum (-3) 50) = 50 /\
  mass1 (set_mass sample_pendulum (-3) 50) = mass1 sample_pendulum /\
  angle2 (set_angle sample_pendulum (-3) 50) = 50 /\
  angle1 (set_angle sample_pendulum (-3) 50) = angle1 sample_pendulum /\
  velocity2 (set_velocity sample_pendulum (-3) 50) = 50 /\
  velocity1 (set_velocity sample_pendulum (-3) 50) = velocity1 sample_pendulum.
Proof. apply setters_other_index_second. discriminate. Defined.

(** ** Dragging *)

(** C6: [start_drag] tests the second bob first with radius [max(10, mass2)]
    around its screen position (anchor plus offset) and then enters
    dragging of joint 2, whether or not the first bob is also in range;
    only then the first bob, with radius [max(10, mass1)]; with no hit it
    returns [False] and the state is unchanged. *)
Theorem start_drag_second_bob_first (p : Pendulum) (position screen_center : R * R) :
  let anchor_x := fst screen_center + offset_x p in
  let anchor_y := snd screen_center + offset_y p in
  let d2 := sqrt ((fst position - (anchor_x + x2 p)) ^ 2 + (snd position - (anchor_y + y2 p)) ^ 2) in
  let d1 := sqrt ((fst position - (anchor_x + x1 p)) ^ 2 + (snd position - (anchor_y + y1 p)) ^ 2) in
  (d2 <= Rmax 10 (mass2 p) ->
     start_drag p position screen_center = (true, set_drag_state p true 2)) /\
  (~ d2 <= Rmax 10 (mass2 p) -> d1 <= Rmax 10 (mass1 p) ->
     start_drag p position screen_center = (true, set_drag_state p true 1)) /\
  (~ d2 <= Rmax 10 (mass2 p) -> ~ d1 <= Rmax 10 (mass1 p) ->
     start_drag p position screen_center = (false, p)).
Proof.
  cbv zeta. unfold start_drag, near_bob, py_max.
  assert (Sq : forall x : R, x ^ 2 = x * x) by (intro; ring). rewrite !Sq.
  repeat split; intros;
    repeat match goal with
    | |- context [Rle_dec ?a ?b] => destruct (Rle_dec a b)
    end; first [reflexivity | contradiction].
Qed.

Lemma start_drag_second_bob_first_witness :
  start_drag sample_pendulum
    (400 + offset_x sample_pendulum + x2 sample_pendulum,
     300 + offset_y sample_pendulum + y2 sample_pendulum) (400, 300)
  = (true, set_drag_state sample_pendulum true 2).
Proof.
  pose proof (start_drag_second_bob_first sample_pendulum
    (400 + offset_x sample_pendulum + x2 sample_pendulum,
     300 + offset_y sample_pendulum + y2 sample_pendulum) (400, 300)) as T.
  cbv zeta in T. apply (proj1 T). cbn [fst snd].
  match goal with |- sqrt ?e <= _ => replace e with 0 by ring end.
  rewrite sqrt_0. eapply Rle_trans; [|apply Rmax_l]. lra.
Defined.

(** ** Energy *)

(** C7: [calculate_energy(g)] returns (kinetic, potential, total) with the
    up-positive heights [y1 = -l1 cos a1], [y2 = y1 - l2 cos a2], the
    Cartesian velocities of the bobs, [KE = 0.5 m1 |v_1|^2 + 0.5 m2 |v_2|^2],
    [PE = m1 g (y1 + l1) + m2 g (y2 + l1 + l2)] and [total = KE + PE]; the
    call is a pure function of the state. *)
Theorem calculate_energy_formula (p : Pendulum) (g : R) :
  let m1 := mass1 p in let m2 := mass2 p in
  let l1 := length1 p in let l2 := length2 p in
  let a1 := angle1 p in let a2 := angle2 p in
  let v1 := velocity1 p in let v2 := velocity2 p in
  let ey1 := - (l1 * cos a1) in
  let ey2 := ey1 - l2 * cos a2 in
  let vx1 := l1 * v1 * cos a1 in
  let vy1 := l1 * v1 * sin a1 in
  let vx2 := vx1 + l2 * v2 * cos a2 in
  let vy2 := vy1 + l2 * v2 * sin a2 in
  let kinetic := 0.5 * m1 * (vx1 ^ 2 + vy1 ^ 2) + 0.5 * m2 * (vx2 ^ 2 + vy2 ^ 2) in
  let potential := m1 * g * (ey1 + l1) + m2 * g * (ey2 + l1 + l2) in
  calculate_energy p g = (kinetic, potential, kinetic + potential).
Proof.
  cbv zeta. unfold calculate_energy. cbv zeta.
  f_equal; [f_equal|]; ring.
Qed.

(** ** Path trace *)


(** C5 (counterexample): with [seconds * fps = -0.5] the capacity becomes
    [int(-0.5) = 0], not [floor(-0.5) = -1]. *)
Lemma set_duration_truncates_not_floor :
  ~ (forall t seconds fps, exists t',
       set_duration t seconds fps = Some t' /\
       max_points t' = Int_part (seconds * fps) /\
       points t' = firstn (Z.to_nat (Int_part (seconds * fps))) (points t)).
Proof.
  intros H. destruct (H ten_sample_tracer (-0.5) 1) as (t' & E & M & _).
  replace (-0.5 * 1) with (-0.5) in M by ring.
  rewrite (Int_part_unique (-0.5) (-1)) in M by (simpl; lra).
  pose proof (proj2 (set_duration_spec ten_sample_tracer (-0.5) 1)) as S.
  cbv zeta in S.
  replace (-0.5 * 1) with (-0.5) in S by ring.
  rewrite (py_int_small_neg (-0.5)) in S by lra.
  rewrite S in E by lia. injection E as <-. cbn in M. discriminate.
Qed.

(** C5 (amended): [set_duration(seconds, fps)] sets the capacity to
    [int(seconds * fps)], which is [floor(seconds * fps)] for a non-negative
    product, [0] for a product in [(-1, 0)], and negative for a product at
    most [-1], where [deque(maxlen=...)] raises; otherwise the new trace is
    the first [min(capacity, old length)] samples in their original order. *)
Theorem set_duration_keeps_oldest (t : PathTracer) (seconds fps : R) :
  let mp := py_int (seconds * fps) in
  (0 <= seconds * fps -> mp = Int_part (seconds * fps)) /\
  (-1 < seconds * fps < 0 -> mp = 0%Z) /\
  (seconds * fps <= -1 -> (mp < 0)%Z /\ set_duration t seconds fps = None) /\
  ((0 <= mp)%Z ->
     exists t', set_duration t seconds fps = Some t' /\
       max_points t' = mp /\ points t' = firstn (Z.to_nat mp) (points t) /\
       length (points t') = Nat.min (Z.to_nat mp) (length (points t)) /\
       color t' = color t /\ visible t' = visible t).
Proof.
  cbv zeta. destruct (set_duration_spec t seconds fps) as [Sneg Spos].
  split; [apply py_int_nonneg|]. split; [apply py_int_small_neg|].
  split.
  - intros H. pose proof (py_int_le_minus_one _ H). auto.
  - intros H. eexists. split; [apply Spos, H|]. cbn.
    repeat split; [apply length_firstn].
Qed.

Lemma set_duration_keeps_oldest_witness :
  set_duration ten_sample_tracer 4 1 =
    Some (mkPathTracer [(0, 0); (1, 0); (2, 0); (3, 0)] 4 (0, 128, 255)%Z true).
Proof.
  assert (M : py_int (4 * 1) = 4%Z)
    by (rewrite py_int_nonneg by lra; apply Int_part_unique; simpl; lra).
  pose proof (set_duration_keeps_oldest ten_sample_tracer 4 1) as T. cbv zeta in T.
  destruct T as (_ & _ & _ & T). rewrite M in T.
  destruct (T ltac:(lia)) as (t' & E & Hm & Hp & _ & Hc & Hv).
  rewrite E. f_equal. destruct t' as [pts' mp' c' v']. cbn in *. subst. reflexivity.
Defined.

(** ** Reset *)

(** C9: after any sequence of calls on a body created from [params],
    [reset()] succeeds and restores the angles, angular velocities, rod
    lengths, masses and Cartesian offsets of the freshly created body. *)
Theorem reset_restores_created_state (pid : Z) (params : PendulumParams) (f q : Pendulum) :
  create_body pid params = Some f -> reachable f q ->
  exists r, reset q = Some r /\ body_state r = body_state f.
Proof.
  intros Hc Hr. unfold create_body in Hc.
  pose proof (initialize_body_state _ _ _ Hc) as [Bf If].
  apply reachable_initial_state in Hr. rewrite If in Hr.
  destruct (initialize_some_any _ _ q _ Hc) as [r Hq].
  exists r. unfold reset. rewrite Hr. split; [exact Hq|].
  rewrite Bf. apply (initialize_body_state _ _ _ Hq).
Qed.


Lemma reset_restores_created_state_witness :
  exists f, create_body 0 default_params = Some f /\
  exists r, reset (set_length (snd (start_drag f (0, 0) (0, 0))) 1 50) = Some r /\
            body_state r = body_state f.
Proof.
  assert (M : py_int (2.0 * 60) = 120%Z)
    by (rewrite py_int_nonneg by lra; apply Int_part_unique; simpl; lra).
  destruct (create_body 0 default_params) as [f|] eqn:C.
  - exists f. split; [reflexivity|].
    apply (reset_restores_created_state 0 default_params); [exact C|].
    apply (reach_step f (snd (start_drag f (0, 0) (0, 0))) (PSetLength 1 50)); [|reflexivity].
    apply (reach_step f f (PStartDrag (0, 0) (0, 0))); [apply reach_refl | reflexivity].
  - exfalso. unfold create_body, initialize, default_params in C. cbn [pp_path_duration] in C.
    rewrite M in C. discriminate.
Defined.

(** ** Ensemble *)

(** C8: an unknown id makes [remove_pendulum] return [False] and
    [select_pendulum] and [get_pendulum_by_id] return [None], leaving the
    system unchanged (no operation raises: all are total); a known id makes
    [remove_pendulum] return [True], delete the entry and clear the
    selection exactly when it referred to the removed object; and every
    operation of [PendulumSystem] keeps the invariant, in particular that
    the selected object, when there is one, is an entry of the dict. *)
Theorem system_lookup_remove_selection :
  (forall s pid, dict_get (pendulums s) pid = None ->
     remove_pendulum s pid = (false, s) /\ select_pendulum s pid = (None, s) /\
     get_pendulum_by_id s pid = None) /\
  (forall s pid l, system_inv s -> dict_get (pendulums s) pid = Some l ->
     let s' := snd (remove_pendulum s pid) in
     fst (remove_pendulum s pid) = true /\
     pendulums s' = dict_del (pendulums s) pid /\
     get_pendulum_by_id s' pid = None /\
     (selected_pendulum s = Some l -> selected_pendulum s' = None) /\
     (selected_pendulum s <> Some l -> selected_pendulum s' = selected_pendulum s)) /\
  system_inv new_system /\
  (forall o s s', system_inv s -> run_system_op o s = Some s' ->
     system_inv s' /\ selection_live s').
Proof.
  refine (conj _ (conj _ (conj system_inv_new _))).
  - intros s pid G. unfold remove_pendulum, select_pendulum, get_pendulum_by_id, dict_mem.
    rewrite G. auto.
  - intros s pid l Hinv G. pose proof Hinv as (Hnd & Hobj & Hbnd & Hsel).
    unfold remove_pendulum, dict_mem. rewrite G. cbv zeta. cbn.
    split; [reflexivity|]. split; [reflexivity|].
    split; [apply dict_del_get, Hnd|].
    destruct (Hobj _ _ (dict_get_In _ _ _ G)) as (q & Q & I). split.
    + intros S. rewrite S, Q, I, Z.eqb_refl. reflexivity.
    + intros NS. destruct (selected_pendulum s) as [l0|] eqn:S; [|reflexivity].
      destruct (Hsel l0 S) as [k0 K0]. destruct (Hobj _ _ K0) as (q0 & Q0 & I0).
      rewrite Q0. destruct (pendulum_id q0 =? pid)%Z eqn:E; [|reflexivity].
      apply Z.eqb_eq in E. rewrite <- I0, E in K0. rewrite (dict_get_NoDup _ _ _ Hnd K0) in G.
      injection G as ->. contradiction.
  - intros o s s' Hinv Hop. pose proof (system_inv_preserved _ _ _ Hinv Hop) as Hinv'.
    split; [exact Hinv'|]. destruct Hinv' as (_ & _ & _ & Hsel'). exact Hsel'.
Qed.


Lemma system_lookup_remove_selection_witness :
  selected_pendulum (snd (remove_pendulum one_pendulum_system 0%Z)) = None /\
  system_inv (snd (remove_pendulum one_pendulum_system 0%Z)).
Proof.
  assert (Hinv : system_inv one_pendulum_system).
  { inv_split.
    - constructor; [cbn; tauto | apply NoDup_nil].
    - intros k l [H|[]]. injection H as <- <-. exists sample_pendulum. split; reflexivity.
    - intros k l [H|[]]. injection H as <- <-. split; [lia|lia].
    - intros l H. injection H as <-. exists 0%Z. left. reflexivity. }
  destruct system_lookup_remove_selection as (_ & R & _ & P).
  split.
  - apply (R one_pendulum_system 0%Z 0%nat Hinv eq_refl). reflexivity.
  - apply (P (OpRemove 0%Z) one_pendulum_system); [exact Hinv | reflexivity].
Defined.

(** * Further properties of the engine, the scene and the configuration *)

(** ** Helper lemmas *)

Lemma tl_app_one_length {A : Type} (xs : list A) (x : A) :
  length (tl (xs ++ [x])) = length xs.
Proof. destruct xs as [|y ys]; cbn; [reflexivity|]. rewrite length_app. cbn. lia. Qed.

Lemma deque_append_bounded {A : Type} (m : Z) (xs : list A) (x : A) :
  (0 <= m)%Z -> (Z.of_nat (length xs) <= m)%Z ->
  (Z.of_nat (length (deque_append m xs x)) <= m)%Z.
Proof.
  intros H0 H. unfold deque_append. cbv zeta.
  rewrite Z.gtb_ltb. destruct (Z.ltb_spec m (Z.of_nat (length (xs ++ [x])))) as [L|L].
  - rewrite tl_app_one_length. exact H.
  - exact L.
Qed.

Lemma add_point_trace_bounded t x y : trace_bounded t -> trace_bounded (add_point t x y).
Proof.
  intros [H0 H]. unfold add_point. destruct (visible t); [|split; assumption].
  split; cbn; [exact H0|]. apply deque_append_bounded; assumption.
Qed.

Lemma update_path_tracer p dt g p' : update p dt g = Some p' -> path_tracer p' = path_tracer p.
Proof.
  destruct (dragging p) eqn:Hd.
  - unfold update. rewrite Hd. intros H. injection H as <-. reflexivity.
  - intros H. apply (update_some_scheme _ _ _ _ Hd) in H.
    destruct H as (_ & _ & _ & _ & _ & _ & _ & (_ & T & _)). exact T.
Qed.

Lemma initialize_trace_bounded params q r :
  initialize params q = Some r -> trace_bounded (path_tracer r).
Proof.
  unfold initialize, tracer_initialize, new_deque.
  destruct (py_int (pp_path_duration params * 60) <? 0)%Z eqn:E; [discriminate|].
  intros H. injection H as <-. apply Z.ltb_ge in E.
  unfold trace_bounded, calculate_cartesian_positions, set_positions.
  cbn [path_tracer points max_points length]. split; lia.
Qed.

Lemma trace_bounded_op o p p' :
  trace_bounded (path_tracer p) -> run_pendulum_op o p = Some p' ->
  trace_bounded (path_tracer p').
Proof.
  intros Hb. destruct o; cbn; intros H.
  - rewrite (update_path_tracer _ _ _ _ H). exact Hb.
  - injection H as <-. unfold set_length. destruct (_ =? _)%Z; exact Hb.
  - injection H as <-. unfold set_mass. destruct (_ =? _)%Z; exact Hb.
  - injection H as <-. unfold set_angle. destruct (_ =? _)%Z; exact Hb.
  - injection H as <-. unfold set_velocity. destruct (_ =? _)%Z; exact Hb.
  - injection H as <-. exact Hb.
  - injection H as <-. unfold start_drag.
    destruct (near_bob _ _ _ _ _); [exact Hb|]. destruct (near_bob _ _ _ _ _); exact Hb.
  - injection H as <-. unfold update_drag. destruct (negb (dragging p)); [exact Hb|].
    cbv zeta. destruct (drag_joint p =? 1)%Z; [|destruct (drag_joint p =? 2)%Z];
      repeat match goal with |- context [Rlt_dec ?a ?b] => destruct (Rlt_dec a b) end;
      exact Hb.
  - injection H as <-. destruct Hb as [H0 _]. split; cbn; lia.
  - unfold reset in H. destruct (initial_state p) as [params|].
    + exact (initialize_trace_bounded _ _ _ H).
    + injection H as <-. exact Hb.
  - injection H as <-. unfold render_trace. destruct (negb (dragging p)); [|exact Hb].
    apply add_point_trace_bounded, Hb.
  - destruct (set_duration_spec (path_tracer p) seconds fps) as [Hn Hs].
    destruct (Z.ltb_spec (py_int (seconds * fps)) 0) as [L|L].
    + rewrite (Hn L) in H. discriminate.
    + rewrite (Hs L) in H. injection H as <-. split; cbn; [exact L|].
      rewrite length_firstn. lia.
  - injection H as <-. exact Hb.
Qed.

(** ** Path trace *)

(** X1: [add_point] does nothing on a hidden trace; on a visible one it
    appends the point while the deque has room and, when it is full, drops
    the oldest point (with [max_points = 0] nothing is kept). *)
Theorem add_point_bounded_fifo (t : PathTracer) (x y : R) :
  (0 <= max_points t)%Z -> (Z.of_nat (length (points t)) <= max_points t)%Z ->
  (visible t = false -> add_point t x y = t) /\
  (visible t = true ->
     max_points (add_point t x y) = max_points t /\ color (add_point t x y) = color t /\
     (Z.of_nat (length (points (add_point t x y))) <= max_points t)%Z /\
     ((Z.of_nat (length (points t)) < max_points t)%Z ->
        points (add_point t x y) = points t ++ [(x, y)]) /\
     (Z.of_nat (length (points t)) = max_points t ->
        points (add_point t x y) = tl (points t ++ [(x, y)]))).
Proof.
  intros H0 H. unfold add_point. destruct (visible t); split; intros V;
    try discriminate; [|reflexivity].
  cbn. split; [reflexivity|]. split; [reflexivity|].
  split; [apply deque_append_bounded; assumption|].
  unfold deque_append. cbv zeta. rewrite length_app. cbn [length]. rewrite Z.gtb_ltb.
  split; intros L.
  - replace (max_points t <? Z.of_nat (length (points t) + 1))%Z with false
      by (symmetry; apply Z.ltb_ge; lia). reflexivity.
  - replace (max_points t <? Z.of_nat (length (points t) + 1))%Z with true
      by (symmetry; apply Z.ltb_lt; lia). reflexivity.
Qed.

Lemma add_point_bounded_fifo_witness :
  points (add_point ten_sample_tracer 10 0) = ten_samples ++ [(10, 0)].
Proof.
  destruct (add_point_bounded_fifo ten_sample_tracer 10 0) as [_ H];
    [unfold ten_sample_tracer; cbn; lia | unfold ten_sample_tracer, ten_samples; cbn; lia |].
  destruct (H eq_refl) as (_ & _ & _ & D & _). apply D.
  unfold ten_sample_tracer, ten_samples. cbn. lia.
Defined.

(** X2: along any sequence of calls on a body made by [create_pendulum],
    the path trace holds at most [max_points] points and [max_points] is
    not negative. *)
Theorem path_trace_stays_bounded (pid : Z) (params : PendulumParams) (f q : Pendulum) :
  create_body pid params = Some f -> reachable f q -> trace_bounded (path_tracer q).
Proof.
  intros Hc R. induction R as [|q o q' _ IH Hop].
  - exact (initialize_trace_bounded _ _ _ Hc).
  - exact (trace_bounded_op o q q' IH Hop).
Qed.

Lemma create_body_default : exists f, create_body 0 default_params = Some f.
Proof.
  assert (M : py_int (2.0 * 60) = 120%Z)
    by (rewrite py_int_nonneg by lra; apply Int_part_unique; simpl; lra).
  unfold create_body, initialize, tracer_initialize, new_deque, default_params.
  cbn [pp_path_duration]. rewrite M. eexists. reflexivity.
Qed.

Lemma path_trace_stays_bounded_witness :
  exists f, create_body 0 default_params = Some f /\
    trace_bounded (path_tracer (render_trace (render_trace f (0, 0)) (0, 0))).
Proof.
  destruct create_body_default as [f Hf]. exists f. split; [exact Hf|].
  apply (path_trace_stays_bounded 0 default_params f); [exact Hf|].
  apply (reach_step f (render_trace f (0, 0)) (PRender (0, 0))); [|reflexivity].
  apply (reach_step f f (PRender (0, 0))); [apply reach_refl | reflexivity].
Defined.

Lemma Int_part_mono x y : x <= y -> (Int_part x <= Int_part y)%Z.
Proof.
  intros H. destruct (base_Int_part x) as [A _], (base_Int_part y) as [_ B].
  assert (C : IZR (Int_part x) < IZR (Int_part y + 1)) by (rewrite plus_IZR; simpl; lra).
  apply lt_IZR in C. lia.
Qed.

Lemma Int_part_range_255 x : 0 <= x < 255 -> (0 <= Int_part x <= 254)%Z.
Proof.
  intros H. destruct (base_Int_part x) as [A B].
  assert (C : IZR (-1) < IZR (Int_part x)) by (simpl; lra).
  assert (D : IZR (Int_part x) < IZR 255) by lra.
  apply lt_IZR in C, D. lia.
Qed.

(** The opacity of segment [k] of [n] points. *)
Lemma render_alpha_value (k n : nat) :
  (1 <= k < n)%nat ->
  0 <= 255 * (INR k / INR n) < 255 /\
  py_int (255 * (INR k / INR n)) = Int_part (255 * (INR k / INR n)).
Proof.
  intros H. assert (Hn : 0 < INR n) by (apply lt_0_INR; lia).
  assert (Hk : INR k < INR n) by (apply lt_INR; lia).
  assert (Hk0 : 0 <= INR k) by apply pos_INR.
  assert (Q : 0 <= INR k / INR n < 1).
  { split; [unfold Rdiv; apply Rmult_le_pos; [lra|apply Rlt_le, Rinv_0_lt_compat; lra]|].
    apply (Rmult_lt_reg_r (INR n)); [exact Hn|]. unfold Rdiv.
    rewrite Rmult_assoc, Rinv_l by lra. lra. }
  assert (R : 0 <= 255 * (INR k / INR n) < 255) by lra.
  split; [exact R|]. apply py_int_nonneg. lra.
Qed.

Lemma render_alpha_mono (k k' n : nat) :
  (k <= k')%nat -> (0 < n)%nat ->
  (Int_part (255 * (INR k / INR n)) <= Int_part (255 * (INR k' / INR n)))%Z.
Proof.
  intros H Hn. apply Int_part_mono. apply Rmult_le_compat_l; [lra|].
  unfold Rdiv. apply Rmult_le_compat_r.
  - apply Rlt_le, Rinv_0_lt_compat, lt_0_INR. exact Hn.
  - apply le_INR. exact H.
Qed.

(** X3: [PathTracer.render] draws nothing for a hidden trace or one with
    fewer than two points; otherwise it draws [n - 1] segments whose alpha
    never decreases from the oldest to the newest and stays in [[0, 254]]. *)
Theorem render_segments_alpha (t : PathTracer) :
  (visible t = false \/ (length (points t) < 2)%nat -> render_segments t = []) /\
  (visible t = true -> (2 <= length (points t))%nat ->
     length (render_segments t) = (length (points t) - 1)%nat /\
     forall i j, (i <= j < length (points t) - 1)%nat ->
       (0 <= nth i (map segment_alpha (render_segments t)) 0)%Z /\
       (nth i (map segment_alpha (render_segments t)) 0 <=
        nth j (map segment_alpha (render_segments t)) 0)%Z /\
       (nth j (map segment_alpha (render_segments t)) 0 <= 254)%Z).
Proof.
  unfold render_segments. split.
  - intros [V|L]; [rewrite V; reflexivity|].
    replace (length (points t) <? 2)%nat with true by (symmetry; apply Nat.ltb_lt; exact L).
    rewrite orb_true_r. reflexivity.
  - intros V L. rewrite V.
    replace (length (points t) <? 2)%nat with false by (symmetry; apply Nat.ltb_ge; exact L).
    cbn [negb orb]. rewrite length_map, length_seq. split; [reflexivity|].
    rewrite map_map.
    set (n := length (points t)).
    set (G := fun i : nat => py_int (255 * (INR i / INR n))).
    assert (E : forall i : nat, segment_alpha
        (let alpha := py_int (255 * (INR i / INR n)) in
         let '(r, g, b) := color t in
         (r, g, b, alpha, nth (i - 1) (points t) (0, 0), nth i (points t) (0, 0))) = G i).
    { intros i. destruct (color t) as [[r g] b]. reflexivity. }
    rewrite (map_ext _ _ E).
    intros i j Hij.
    rewrite (nth_indep _ 0%Z (G 0%nat)), map_nth, seq_nth by (rewrite ?length_map, ?length_seq; lia).
    rewrite (nth_indep _ 0%Z (G 0%nat)), map_nth, seq_nth by (rewrite ?length_map, ?length_seq; lia).
    unfold G.
    destruct (render_alpha_value (1 + i) n) as [Ri Pi]; [lia|].
    destruct (render_alpha_value (1 + j) n) as [Rj Pj]; [lia|].
    rewrite Pi, Pj.
    pose proof (Int_part_range_255 _ Ri). pose proof (Int_part_range_255 _ Rj).
    pose proof (render_alpha_mono (1 + i) (1 + j) n ltac:(lia) ltac:(lia)). lia.
Qed.

Lemma render_segments_alpha_witness : length (render_segments ten_sample_tracer) = 9%nat.
Proof.
  destruct (render_segments_alpha ten_sample_tracer) as [_ H].
  destruct (H eq_refl) as [L _]; [unfold ten_sample_tracer, ten_samples; cbn; lia|].
  rewrite L. reflexivity.
Defined.

(** ** Cartesian offsets *)

Lemma calculate_cartesian_positions_consistent p :
  cartesian_consistent (calculate_cartesian_positions p).
Proof. unfold cartesian_consistent. cbn. repeat split; reflexivity. Qed.

Lemma initialize_consistent params q r :
  initialize params q = Some r -> cartesian_consistent r.
Proof.
  unfold initialize. destruct (tracer_initialize _ _ _); [|discriminate].
  intros H. injection H as <-. apply calculate_cartesian_positions_consistent.
Qed.

Lemma cartesian_consistent_op o p p' :
  cartesian_consistent p -> run_pendulum_op o p = Some p' -> cartesian_consistent p'.
Proof.
  intros Hc. destruct o; cbn; intros H.
  - unfold update in H. destruct (dragging p); [injection H as <-; exact Hc|].
    destruct (velocity_verlet_step p dt gravity); [|discriminate].
    injection H as <-. apply calculate_cartesian_positions_consistent.
  - injection H as <-. apply calculate_cartesian_positions_consistent.
  - injection H as <-. unfold set_mass. destruct (_ =? _)%Z; exact Hc.
  - injection H as <-. apply calculate_cartesian_positions_consistent.
  - injection H as <-. unfold set_velocity. destruct (_ =? _)%Z; exact Hc.
  - injection H as <-. exact Hc.
  - injection H as <-. unfold start_drag.
    destruct (near_bob _ _ _ _ _); [exact Hc|]. destruct (near_bob _ _ _ _ _); exact Hc.
  - injection H as <-. unfold update_drag. destruct (negb (dragging p)); [exact Hc|].
    apply calculate_cartesian_positions_consistent.
  - injection H as <-. exact Hc.
  - unfold reset in H. destruct (initial_state p) as [params|].
    + exact (initialize_consistent _ _ _ H).
    + injection H as <-. exact Hc.
  - injection H as <-. unfold render_trace. destruct (negb (dragging p)); exact Hc.
  - destruct (set_duration _ _ _); [|discriminate]. injection H as <-. exact Hc.
  - injection H as <-. exact Hc.
Qed.

(** X4: along any sequence of calls on a body made by [create_pendulum],
    the stored offsets [x1, y1, x2, y2] are those of the current angles
    and lengths ([x1 = l1 sin a1], [y1 = l1 cos a1], and so on). *)
Theorem cartesian_offsets_stay_consistent (pid : Z) (params : PendulumParams) (f q : Pendulum) :
  create_body pid params = Some f -> reachable f q -> cartesian_consistent q.
Proof.
  intros Hc R. induction R as [|q o q' _ IH Hop].
  - exact (initialize_consistent _ _ _ Hc).
  - exact (cartesian_consistent_op o q q' IH Hop).
Qed.

Lemma cartesian_offsets_stay_consistent_witness :
  exists f, create_body 0 default_params = Some f /\
    cartesian_consistent (set_mass (set_velocity f 1 3) 2 50).
Proof.
  destruct create_body_default as [f Hf]. exists f. split; [exact Hf|].
  apply (cartesian_offsets_stay_consistent 0 default_params f); [exact Hf|].
  apply (reach_step f (set_velocity f 1 3) (PSetMass 2 50)); [|reflexivity].
  apply (reach_step f f (PSetVelocity 1 3)); [apply reach_refl | reflexivity].
Defined.

(** ** Rest states of the integrator *)

Lemma normalize_angle_id a : - PI <= a < PI -> normalize_angle a = a.
Proof.
  intros H. pose proof PI_RGT_0.
  unfold normalize_angle. rewrite (Int_part_unique _ 0); [simpl; ring|].
  simpl. split.
  - unfold Rdiv. apply Rmult_le_pos; [lra|]. apply Rlt_le, Rinv_0_lt_compat. lra.
  - apply (Rmult_lt_reg_r (2 * PI)); [lra|]. unfold Rdiv.
    rewrite Rmult_assoc, Rinv_l by lra. lra.
Qed.

Lemma normalize_angle_0 : normalize_angle 0 = 0.
Proof. pose proof PI_RGT_0. apply normalize_angle_id. lra. Qed.

Lemma spec_accel_bottom g m1 m2 l1 l2 :
  spec_accel1 g m1 m2 l1 l2 0 0 0 0 = 0 /\ spec_accel2 g m1 m2 l1 l2 0 0 0 0 = 0.
Proof.
  unfold spec_accel1, spec_accel2.
  replace (0 - 2 * 0) with 0 by ring. replace (0 - 0) with 0 by ring.
  rewrite sin_0. unfold Rdiv. split; ring.
Qed.

Lemma spec_accel_weightless m1 m2 l1 l2 a1 a2 :
  spec_accel1 0 m1 m2 l1 l2 a1 a2 0 0 = 0 /\ spec_accel2 0 m1 m2 l1 l2 a1 a2 0 0 = 0.
Proof. unfold spec_accel1, spec_accel2, Rdiv. split; ring. Qed.

(** A step from rest, when the accelerations vanish at the old and at the
    normalised angles. *)
Lemma update_rest_step p dt g :
  dragging p = false -> velocity1 p = 0 -> velocity2 p = 0 ->
  0 < length1 p -> 0 < length2 p -> 0 < mass1 p -> 0 <= mass2 p ->
  (forall a1 a2, (a1 = angle1 p /\ a2 = angle2 p) \/
                 (a1 = normalize_angle (angle1 p) /\ a2 = normalize_angle (angle2 p)) ->
     spec_accel1 g (mass1 p) (mass2 p) (length1 p) (length2 p) a1 a2 0 0 = 0 /\
     spec_accel2 g (mass1 p) (mass2 p) (length1 p) (length2 p) a1 a2 0 0 = 0) ->
  exists p', update p dt g = Some p' /\
    velocity1 p' = 0 /\ velocity2 p' = 0 /\
    angle1 p' = normalize_angle (angle1 p) /\ angle2 p' = normalize_angle (angle2 p) /\
    length1 p' = length1 p /\ length2 p' = length2 p /\ cartesian_consistent p'.
Proof.
  intros Hd V1 V2 L1 L2 M1 M2 Hz.
  destruct (update p dt g) as [p'|] eqn:U.
  - exists p'. split; [reflexivity|].
    unfold update in U. rewrite Hd in U.
    destruct (velocity_verlet_step p dt g) as [q|] eqn:E; [|discriminate].
    injection U as <-.
    apply velocity_verlet_step_some in E
      as (acc1 & acc2 & accn1 & accn2 & A1 & A2 & N1 & N2 & ->).
    apply calculate_acceleration1_spec in A1. apply calculate_acceleration2_spec in A2.
    rewrite V1, V2 in A1, A2.
    destruct (Hz (angle1 p) (angle2 p) (or_introl (conj eq_refl eq_refl))) as [Z1 Z2].
    rewrite Z1 in A1. rewrite Z2 in A2. subst acc1 acc2.
    rewrite V1, V2 in N1, N2 |- *.
    replace (0 + 0.5 * 0 * dt) with 0 in N1, N2 |- * by ring.
    replace (angle1 p + 0 * dt) with (angle1 p) in N1, N2 |- * by ring.
    replace (angle2 p + 0 * dt) with (angle2 p) in N1, N2 |- * by ring.
    apply calculate_acceleration1_spec in N1. apply calculate_acceleration2_spec in N2.
    cbn [mass1 mass2 length1 length2 angle1 angle2 velocity1 velocity2
         set_velocity1 set_velocity2 set_angle1 set_angle2] in N1, N2.
    destruct (Hz (normalize_angle (angle1 p)) (normalize_angle (angle2 p))
                 (or_intror (conj eq_refl eq_refl))) as [Z3 Z4].
    rewrite Z3 in N1. rewrite Z4 in N2. subst accn1 accn2.
    split; [cbn; ring|]. split; [cbn; ring|].
    split; [reflexivity|]. split; [reflexivity|].
    split; [reflexivity|]. split; [reflexivity|].
    apply calculate_cartesian_positions_consistent.
  - exfalso. apply (update_none_scheme _ _ _ Hd) in U. cbv zeta in U.
    destruct U as [U|[U|[U|U]]];
    match type of U with
    | ?l * spec_bracket ?m1 ?m2 ?a1 ?a2 = 0 =>
        assert (0 < l * spec_bracket m1 m2 a1 a2) by (apply denominator_pos; lra); lra
    end.
Qed.

(** X5: a body hanging straight down at rest (both angles and both
    velocities zero) with positive lengths and first mass and a
    non-negative second mass stays there under [update(dt, gravity)], for
    every [dt] and [gravity]. *)
Theorem update_keeps_hanging_rest (p : Pendulum) (dt gravity : R) :
  dragging p = false -> angle1 p = 0 -> angle2 p = 0 ->
  velocity1 p = 0 -> velocity2 p = 0 ->
  0 < length1 p -> 0 < length2 p -> 0 < mass1 p -> 0 <= mass2 p ->
  exists p', update p dt gravity = Some p' /\
    angle1 p' = 0 /\ angle2 p' = 0 /\ velocity1 p' = 0 /\ velocity2 p' = 0 /\
    x1 p' = 0 /\ y1 p' = length1 p /\ x2 p' = 0 /\ y2 p' = length1 p + length2 p.
Proof.
  intros Hd A1 A2 V1 V2 L1 L2 M1 M2.
  destruct (update_rest_step p dt gravity Hd V1 V2 L1 L2 M1 M2) as
    (p' & U & W1 & W2 & B1 & B2 & E1 & E2 & (C1 & C2 & C3 & C4)).
  { intros a1 a2 H. rewrite A1, A2, normalize_angle_0 in H.
    assert (a1 = 0 /\ a2 = 0) as [-> ->] by tauto. apply spec_accel_bottom. }
  rewrite A1, normalize_angle_0 in B1. rewrite A2, normalize_angle_0 in B2.
  exists p'. split; [exact U|].
  rewrite C4, C3, C2, C1, B1, B2, E1, E2, sin_0, cos_0.
  repeat split; try assumption; ring.
Qed.

Lemma update_keeps_hanging_rest_witness :
  exists p', update hanging_pendulum 0.01 9.81 = Some p' /\ x2 p' = 0.
Proof.
  pose proof PI_RGT_0.
  destruct (update_keeps_hanging_rest hanging_pendulum 0.01 9.81)
    as (p' & U & _ & _ & _ & _ & _ & _ & X & _);
    try (unfold hanging_pendulum; cbn; first [reflexivity | lra]).
  exists p'. split; [exact U | exact X].
Defined.

(** X6: with zero gravity, a body at rest (both velocities zero) whose
    angles lie in [[-PI, PI)], with positive lengths and first mass and a
    non-negative second mass, does not move under [update(dt, 0)]. *)
Theorem update_weightless_rest (p : Pendulum) (dt : R) :
  dragging p = false -> velocity1 p = 0 -> velocity2 p = 0 ->
  - PI <= angle1 p < PI -> - PI <= angle2 p < PI ->
  0 < length1 p -> 0 < length2 p -> 0 < mass1 p -> 0 <= mass2 p ->
  exists p', update p dt 0 = Some p' /\
    body_state p' = (angle1 p, angle2 p, 0, 0, length1 p, length2 p, mass1 p, mass2 p,
                     (length1 p * sin (angle1 p), length1 p * cos (angle1 p),
                      length1 p * sin (angle1 p) + length2 p * sin (angle2 p),
                      length1 p * cos (angle1 p) + length2 p * cos (angle2 p))).
Proof.
  intros Hd V1 V2 R1 R2 L1 L2 M1 M2.
  destruct (update_rest_step p dt 0 Hd V1 V2 L1 L2 M1 M2) as
    (p' & U & W1 & W2 & B1 & B2 & E1 & E2 & (C1 & C2 & C3 & C4)).
  { intros a1 a2 _. apply spec_accel_weightless. }
  rewrite normalize_angle_id in B1, B2 by assumption.
  exists p'. split; [exact U|].
  assert (S : same_configuration p p').
  { destruct (update_some_scheme _ _ _ _ Hd U) as (_ & _ & _ & _ & _ & _ & _ & S). exact S. }
  destruct S as (_ & _ & _ & _ & _ & _ & _ & Ma1 & Ma2 & _).
  unfold body_state. rewrite C4, C3, C2, C1, B1, B2, E1, E2, W1, W2, Ma1, Ma2. reflexivity.
Qed.

Lemma update_weightless_rest_witness :
  exists p', update sample_pendulum 0.01 0 = Some p' /\ angle1 p' = PI / 4.
Proof.
  pose proof PI_RGT_0.
  destruct (update_weightless_rest sample_pendulum 0.01)
    as (p' & U & B);
    try (unfold sample_pendulum; cbn; first [reflexivity | lra]).
  exists p'. split; [exact U|]. unfold body_state in B. injection B as A1 _. exact A1.
Defined.

(** ** Energy *)

(** X7: with non-negative masses, lengths and gravity, the kinetic, the
    potential and the total energy returned by [calculate_energy] are
    non-negative (the potential is measured from the lowest position). *)
Theorem calculate_energy_nonneg (p : Pendulum) (g : R) :
  0 <= mass1 p -> 0 <= mass2 p -> 0 <= length1 p -> 0 <= length2 p -> 0 <= g ->
  0 <= fst (fst (calculate_energy p g)) /\ 0 <= snd (fst (calculate_energy p g)) /\
  0 <= snd (calculate_energy p g).
Proof.
  intros M1 M2 L1 L2 G. unfold calculate_energy. cbv zeta. cbn [fst snd].
  pose proof (COS_bound (angle1 p)) as C1. pose proof (COS_bound (angle2 p)) as C2.
  set (a := length1 p * velocity1 p * cos (angle1 p)).
  set (b := length1 p * velocity1 p * sin (angle1 p)).
  set (c := a + length2 p * velocity2 p * cos (angle2 p)).
  set (d := b + length2 p * velocity2 p * sin (angle2 p)).
  assert (K : 0 <= 0.5 * mass1 p * (a ^ 2 + b ^ 2) + 0.5 * mass2 p * (c ^ 2 + d ^ 2)).
  { pose proof (pow2_ge_0 a). pose proof (pow2_ge_0 b).
    pose proof (pow2_ge_0 c). pose proof (pow2_ge_0 d).
    apply Rplus_le_le_0_compat; apply Rmult_le_pos; try lra. }
  assert (P1 : 0 <= mass1 p * g * (- length1 p * cos (angle1 p) + length1 p)).
  { apply Rmult_le_pos; [apply Rmult_le_pos; assumption|].
    replace (- length1 p * cos (angle1 p) + length1 p)
      with (length1 p * (1 - cos (angle1 p))) by ring.
    apply Rmult_le_pos; lra. }
  assert (P2 : 0 <= mass2 p * g *
      (- length1 p * cos (angle1 p) - length2 p * cos (angle2 p) + length1 p + length2 p)).
  { apply Rmult_le_pos; [apply Rmult_le_pos; assumption|].
    replace (- length1 p * cos (angle1 p) - length2 p * cos (angle2 p) + length1 p + length2 p)
      with (length1 p * (1 - cos (angle1 p)) + length2 p * (1 - cos (angle2 p))) by ring.
    apply Rplus_le_le_0_compat; apply Rmult_le_pos; lra. }
  split; [exact K|]. split; lra.
Qed.

Lemma calculate_energy_nonneg_witness : 0 <= snd (calculate_energy sample_pendulum 9.81).
Proof.
  destruct (calculate_energy_nonneg sample_pendulum 9.81) as (_ & _ & T);
    try (unfold sample_pendulum; cbn; lra).
  exact T.
Defined.

(** X8: the kinetic energy of [calculate_energy] is the textbook one,
    [0.5 m1 l1^2 v1^2 + 0.5 m2 (l1^2 v1^2 + l2^2 v2^2 + 2 l1 l2 v1 v2 cos(a1 - a2))]. *)
Theorem kinetic_energy_standard_form (p : Pendulum) (g : R) :
  fst (fst (calculate_energy p g)) =
  0.5 * mass1 p * length1 p ^ 2 * velocity1 p ^ 2 +
  0.5 * mass2 p * (length1 p ^ 2 * velocity1 p ^ 2 + length2 p ^ 2 * velocity2 p ^ 2 +
                   2 * length1 p * length2 p * velocity1 p * velocity2 p *
                   cos (angle1 p - angle2 p)).
Proof.
  unfold calculate_energy. cbv zeta. cbn [fst snd]. rewrite cos_minus.
  pose proof (sin2_cos2 (angle1 p)) as S1. pose proof (sin2_cos2 (angle2 p)) as S2.
  unfold Rsqr in S1, S2.
  apply Rminus_diag_uniq.
  transitivity (0.5 * mass1 p * length1 p ^ 2 * velocity1 p ^ 2 *
                  (sin (angle1 p) * sin (angle1 p) + cos (angle1 p) * cos (angle1 p) - 1) +
                0.5 * mass2 p * (length1 p ^ 2 * velocity1 p ^ 2 *
                  (sin (angle1 p) * sin (angle1 p) + cos (angle1 p) * cos (angle1 p) - 1) +
                  length2 p ^ 2 * velocity2 p ^ 2 *
                  (sin (angle2 p) * sin (angle2 p) + cos (angle2 p) * cos (angle2 p) - 1)));
    [ring|].
  rewrite S1, S2. ring.
Qed.

(** ** Dragging *)

Lemma sqrt_mult_square x u : 0 < x -> 0 <= u -> sqrt (x * x * u) = x * sqrt u.
Proof.
  intros Hx Hu. rewrite sqrt_mult by nra. rewrite sqrt_square by lra. reflexivity.
Qed.

(** [math.atan2(y, x)] gives the polar angle of [(x, y)] measured from the
    x axis: [r sin a = y] and [r cos a = x] with [r] the distance. *)
Lemma atan2_polar x y :
  0 < x * x + y * y ->
  sqrt (x * x + y * y) * sin (py_atan2 y x) = y /\
  sqrt (x * x + y * y) * cos (py_atan2 y x) = x.
Proof.
  intros Hr. unfold py_atan2.
  assert (T : forall t, 0 < sqrt (1 + Rsqr t))
    by (intros t; apply sqrt_lt_R0; pose proof (Rle_0_sqr t); lra).
  destruct (Rlt_dec 0 x) as [Hx|Hx].
  - set (t := y / x). pose proof (T t) as Tt.
    assert (E : sqrt (x * x + y * y) = x * sqrt (1 + Rsqr t)).
    { rewrite <- sqrt_mult_square by (try lra; pose proof (Rle_0_sqr t); lra).
      f_equal. unfold t, Rsqr. field. lra. }
    rewrite E, sin_atan, cos_atan. unfold t in *. split; field; repeat split; intro; lra.
  - destruct (Rlt_dec x 0) as [Hx'|Hx'].
    + set (t := y / x). pose proof (T t) as Tt.
      assert (E : sqrt (x * x + y * y) = (- x) * sqrt (1 + Rsqr t)).
      { rewrite <- sqrt_mult_square by (try lra; pose proof (Rle_0_sqr t); lra).
        f_equal. unfold t, Rsqr. field. lra. }
      assert (Sm : forall u, sin (u - PI) = - sin u)
        by (intros u; rewrite sin_minus, cos_PI, sin_PI; ring).
      assert (Cm : forall u, cos (u - PI) = - cos u)
        by (intros u; rewrite cos_minus, cos_PI, sin_PI; ring).
      rewrite E. destruct (Rle_dec 0 y);
        [rewrite neg_sin, neg_cos | rewrite Sm, Cm];
        rewrite sin_atan, cos_atan; unfold t in *; split; field; repeat split; intro; lra.
    + assert (X0 : x = 0) by lra. subst x.
      destruct (Rlt_dec 0 y) as [Hy|Hy].
      * replace (0 * 0 + y * y) with (y * y) by ring. rewrite sqrt_square by lra.
        rewrite sin_PI2, cos_PI2. split; ring.
      * destruct (Rlt_dec y 0) as [Hy'|Hy'].
        -- replace (0 * 0 + y * y) with ((- y) * (- y)) by ring.
           rewrite sqrt_square by lra. rewrite sin_neg, cos_neg, sin_PI2, cos_PI2.
           split; ring.
        -- assert (y = 0) by lra. subst y. lra.
Qed.

Lemma sqrt_gt_10_pos x y : 10 < sqrt (x * x + y * y) -> 0 < x * x + y * y.
Proof.
  intros H. destruct (Rlt_le_dec 0 (x * x + y * y)) as [P|P]; [exact P|].
  assert (x * x + y * y = 0) as E by nra. rewrite E, sqrt_0 in H. lra.
Qed.

(** X9: while the first bob is dragged, [update_drag] zeroes both
    velocities, leaves the second rod alone and sets [angle1] to
    [atan2(rel_y, rel_x)] of the pointer relative to the anchor; when the
    pointer is more than 10 away, [length1] becomes that distance and the
    first bob's offset becomes [(rel_y, rel_x)], the pointer's coordinates
    swapped (so the bob is under the pointer only when [rel_x = rel_y]);
    otherwise [length1] is kept. *)
Theorem update_drag_first_bob (p : Pendulum) (position screen_center : R * R) :
  dragging p = true -> drag_joint p = 1%Z ->
  let rel_x := fst position - (fst screen_center + offset_x p) in
  let rel_y := snd position - (snd screen_center + offset_y p) in
  let p' := update_drag p position screen_center in
  velocity1 p' = 0 /\ velocity2 p' = 0 /\ length2 p' = length2 p /\ angle2 p' = angle2 p /\
  angle1 p' = py_atan2 rel_y rel_x /\
  (10 < sqrt (rel_x * rel_x + rel_y * rel_y) ->
     length1 p' = sqrt (rel_x * rel_x + rel_y * rel_y) /\ x1 p' = rel_y /\ y1 p' = rel_x) /\
  (sqrt (rel_x * rel_x + rel_y * rel_y) <= 10 -> length1 p' = length1 p).
Proof.
  intros Hd Hj. cbv zeta. unfold update_drag. rewrite Hd.
  assert (J1 : (drag_joint p =? 1)%Z = true) by (rewrite Hj; reflexivity).
  cbn [negb]. rewrite J1. cbv zeta.
  match goal with |- context [Rlt_dec 10 ?r] => destruct (Rlt_dec 10 r) as [L|L] end;
  cbn [calculate_cartesian_positions set_positions set_velocity1 set_velocity2 set_length1
       set_angle1 x1 y1 x2 y2 velocity1 velocity2 length1 length2 angle1 angle2].
  - destruct (atan2_polar _ _ (sqrt_gt_10_pos _ _ L)) as [Ps Pc].
    repeat split; try reflexivity; try (intros; lra); assumption.
  - repeat split; try reflexivity; intros; lra.
Qed.

Lemma update_drag_first_bob_witness :
  x1 (update_drag first_bob_dragged (30, 40) (0, 0)) = 40 /\
  y1 (update_drag first_bob_dragged (30, 40) (0, 0)) = 30.
Proof.
  destruct (update_drag_first_bob first_bob_dragged (30, 40) (0, 0) eq_refl eq_refl)
    as (_ & _ & _ & _ & _ & H & _).
  assert (Ox : offset_x first_bob_dragged = 0) by reflexivity.
  assert (Oy : offset_y first_bob_dragged = 0) by reflexivity.
  cbn [fst snd] in H. rewrite Ox, Oy in H.
  replace (30 - (0 + 0)) with 30 in H by ring. replace (40 - (0 + 0)) with 40 in H by ring.
  assert (S : sqrt (30 * 30 + 40 * 40) = 50).
  { replace (30 * 30 + 40 * 40) with (50 * 50) by ring. apply sqrt_square. lra. }
  rewrite S in H. destruct H as (_ & X & Y); [lra|]. split; assumption.
Defined.

(** X10: while the second bob is dragged, [update_drag] zeroes both
    velocities, keeps the first rod (angle, length and offset) and sets
    [angle2] to [atan2] of the pointer relative to the first bob; when that
    distance exceeds 10, [length2] becomes it and the second bob lands at
    the first bob plus that relative vector with its coordinates swapped;
    otherwise [length2] is kept. *)
Theorem update_drag_second_bob (p : Pendulum) (position screen_center : R * R) :
  dragging p = true -> drag_joint p = 2%Z ->
  let rel_x := fst position - (fst screen_center + offset_x p) in
  let rel_y := snd position - (snd screen_center + offset_y p) in
  let rx := rel_x - length1 p * sin (angle1 p) in
  let ry := rel_y - length1 p * cos (angle1 p) in
  let p' := update_drag p position screen_center in
  velocity1 p' = 0 /\ velocity2 p' = 0 /\ angle1 p' = angle1 p /\ length1 p' = length1 p /\
  x1 p' = length1 p * sin (angle1 p) /\ y1 p' = length1 p * cos (angle1 p) /\
  angle2 p' = py_atan2 ry rx /\
  (10 < sqrt (rx * rx + ry * ry) ->
     length2 p' = sqrt (rx * rx + ry * ry) /\ x2 p' = x1 p' + ry /\ y2 p' = y1 p' + rx) /\
  (sqrt (rx * rx + ry * ry) <= 10 -> length2 p' = length2 p).
Proof.
  intros Hd Hj. cbv zeta. unfold update_drag. rewrite Hd.
  assert (J1 : (drag_joint p =? 1)%Z = false) by (rewrite Hj; reflexivity).
  assert (J2 : (drag_joint p =? 2)%Z = true) by (rewrite Hj; reflexivity).
  cbn [negb]. rewrite J1, J2. cbv zeta.
  cbn [calculate_cartesian_positions set_positions x1 y1 x2 y2 length1 angle1].
  match goal with |- context [Rlt_dec 10 ?r] => destruct (Rlt_dec 10 r) as [L|L] end;
  cbn [calculate_cartesian_positions set_positions set_velocity1 set_velocity2 set_length2
       set_angle2 x1 y1 x2 y2 velocity1 velocity2 length1 length2 angle1 angle2].
  - destruct (atan2_polar _ _ (sqrt_gt_10_pos _ _ L)) as [Ps Pc].
    repeat split; try reflexivity; try (intros; lra); rewrite ?Ps, ?Pc; reflexivity.
  - repeat split; try reflexivity; intros; lra.
Qed.

Lemma update_drag_second_bob_witness :
  x2 (update_drag second_bob_dragged (30, 160) (0, 0)) =
  x1 (update_drag second_bob_dragged (30, 160) (0, 0)) + 40.
Proof.
  destruct (update_drag_second_bob second_bob_dragged (30, 160) (0, 0) eq_refl eq_refl)
    as (_ & _ & _ & _ & _ & _ & _ & H & _).
  assert (Ox : offset_x second_bob_dragged = 0) by reflexivity.
  assert (Oy : offset_y second_bob_dragged = 0) by reflexivity.
  assert (L1 : length1 second_bob_dragged = 120) by reflexivity.
  assert (A1 : angle1 second_bob_dragged = 0) by reflexivity.
  cbn [fst snd] in H. rewrite Ox, Oy, L1, A1, sin_0, cos_0 in H.
  replace (30 - (0 + 0) - 120 * 0) with 30 in H by ring.
  replace (160 - (0 + 0) - 120 * 1) with 40 in H by ring.
  assert (S : sqrt (30 * 30 + 40 * 40) = 50).
  { replace (30 * 30 + 40 * 40) with (50 * 50) by ring. apply sqrt_square. lra. }
  rewrite S in H. destruct H as (_ & X & _); [lra|]. exact X.
Defined.

(** ** Ensemble *)

Lemma create_pendulum_inv s params l s' :
  system_inv s -> create_pendulum s params = Some (l, s') -> system_inv s'.
Proof.
  intros Hinv H. apply (system_inv_preserved (OpCreate params) s s' Hinv).
  cbn. rewrite H. reflexivity.
Qed.

(** X11: on a consistent system, [create_pendulum(params)] files the new
    object under the previous value of the id counter, selects it, adds one
    entry, advances the counter, and leaves the earlier entries and their
    objects untouched. *)
Theorem create_pendulum_registers (s : PendulumSystem) (params : PendulumParams)
  (l : Loc) (s' : PendulumSystem) :
  system_inv s -> create_pendulum s params = Some (l, s') ->
  get_pendulum_by_id s' (next_pendulum_id s) = Some l /\
  selected_pendulum s' = Some l /\
  length (pendulums s') = S (length (pendulums s)) /\
  next_pendulum_id s' = (next_pendulum_id s + 1)%Z /\
  (exists q, heap s' l = Some q /\ pendulum_id q = next_pendulum_id s /\
             initial_state q = Some params) /\
  (forall k l0, In (k, l0) (pendulums s) ->
     In (k, l0) (pendulums s') /\ heap s' l0 = heap s l0).
Proof.
  intros Hinv H. pose proof (create_pendulum_inv _ _ _ _ Hinv H) as (Hnd' & _ & _ & _).
  pose proof Hinv as (Hnd & Hobj & Hbnd & Hsel).
  unfold create_pendulum in H.
  destruct (initialize params (new_pendulum (next_pendulum_id s))) as [q|] eqn:Hi;
    [|discriminate].
  injection H as <- <-.
  assert (Fresh : ~ In (next_pendulum_id s) (map fst (pendulums s))).
  { intros F. apply in_map_iff in F as ([k l] & E & F). cbn in E. subst.
    destruct (Hbnd _ _ F) as [_ B]. lia. }
  cbn in Hnd' |- *. rewrite (dict_set_new _ _ _ Fresh) in Hnd' |- *.
  split; [apply dict_get_NoDup; [exact Hnd'|apply in_or_app; right; left; reflexivity]|].
  split; [reflexivity|].
  split; [rewrite length_app; cbn; lia|].
  split; [reflexivity|].
  split.
  - exists q. unfold heap_set. rewrite Nat.eqb_refl. split; [reflexivity|].
    split; [rewrite (initialize_pendulum_id _ _ _ Hi); reflexivity|].
    exact (proj2 (initialize_body_state _ _ _ Hi)).
  - intros k l0 Hin. split; [apply in_or_app; left; exact Hin|].
    destruct (Hbnd _ _ Hin) as [B _]. unfold heap_set.
    replace (Nat.eqb l0 (next_loc s)) with false by (symmetry; apply Nat.eqb_neq; lia).
    reflexivity.
Qed.

Lemma create_new_system_default :
  exists l s', create_pendulum new_system default_params = Some (l, s').
Proof.
  destruct create_body_default as [f Hf]. unfold create_pendulum, new_system.
  cbn [next_pendulum_id next_loc pendulums heap].
  unfold create_body in Hf. rewrite Hf. eexists. eexists. reflexivity.
Qed.

Lemma create_pendulum_registers_witness :
  exists l s', create_pendulum new_system default_params = Some (l, s') /\
    get_pendulum_by_id s' 0%Z = Some l.
Proof.
  destruct create_new_system_default as (l & s' & C). exists l, s'. split; [exact C|].
  exact (proj1 (create_pendulum_registers new_system default_params l s' system_inv_new C)).
Defined.

Lemma run_system_op_counter o s s' :
  o <> OpInitialize -> run_system_op o s = Some s' ->
  (next_pendulum_id s <= next_pendulum_id s')%Z.
Proof.
  intros Ho. destruct o; cbn; intros H; try (injection H as <-; unfold system_clear; cbn; lia).
  - contradiction.
  - unfold system_update in H. destruct (update_all _ _ _ _); [|discriminate].
    injection H as <-. cbn. lia.
  - unfold create_pendulum in H. destruct (initialize _ _); [|discriminate].
    injection H as <-. cbn. lia.
  - injection H as <-. unfold remove_pendulum. destruct (dict_mem _ _); cbn; lia.
  - injection H as <-. unfold select_pendulum. destruct (dict_get _ _); cbn; lia.
  - injection H as <-. unfold try_select_pendulum_at_position.
    destruct (scan_at _ _ _ _); cbn; lia.
Qed.

Lemma run_system_ops_counter os s s' :
  ~ In OpInitialize os -> run_system_ops os s = Some s' ->
  (next_pendulum_id s <= next_pendulum_id s')%Z /\ (system_inv s -> system_inv s').
Proof.
  revert s. induction os as [|o rest IH]; cbn; intros s Ho H.
  - injection H as <-. split; [lia|auto].
  - destruct (run_system_op o s) as [s1|] eqn:E; [|discriminate].
    destruct (IH s1 (fun F => Ho (or_intror F)) H) as [C I].
    split.
    + pose proof (run_system_op_counter o s s1 (fun F => Ho (or_introl F)) E). lia.
    + intros Hinv. apply I. exact (system_inv_preserved _ _ _ Hinv E).
Qed.

(** X12: as long as [initialize()] is not called, a pendulum created later
    gets an id at least the current counter, so it differs from every id
    in the dict now and from every id removed earlier ([clear] and
    [remove_pendulum] do not give ids back). *)
Theorem created_ids_are_fresh (os : list system_op) (s s1 s2 : PendulumSystem)
  (params : PendulumParams) (l : Loc) :
  system_inv s -> ~ In OpInitialize os -> run_system_ops os s = Some s1 ->
  create_pendulum s1 params = Some (l, s2) ->
  exists q, heap s2 l = Some q /\ (next_pendulum_id s <= pendulum_id q)%Z /\
    forall k l0, In (k, l0) (pendulums s) -> k <> pendulum_id q.
Proof.
  intros Hinv Ho R C. destruct (run_system_ops_counter _ _ _ Ho R) as [Cnt I].
  destruct (create_pendulum_registers _ _ _ _ (I Hinv) C) as (_ & _ & _ & _ & (q & Q & Id & _) & _).
  exists q. split; [exact Q|]. rewrite Id. split; [exact Cnt|].
  intros k l0 Hin. destruct Hinv as (_ & _ & Hbnd & _). destruct (Hbnd _ _ Hin). lia.
Qed.

Lemma one_pendulum_system_inv : system_inv one_pendulum_system.
Proof.
  inv_split.
  - constructor; [cbn; tauto | apply NoDup_nil].
  - intros k l [H|[]]. injection H as <- <-. exists sample_pendulum. split; reflexivity.
  - intros k l [H|[]]. injection H as <- <-. split; [lia|lia].
  - intros l H. injection H as <-. exists 0%Z. left. reflexivity.
Qed.

Lemma create_after_clear_default :
  exists l s2, create_pendulum (system_clear one_pendulum_system) default_params = Some (l, s2).
Proof.
  destruct create_body_default as [f Hf].
  destruct (initialize_some_any default_params (new_pendulum 0)
              (new_pendulum (next_pendulum_id (system_clear one_pendulum_system))) f Hf)
    as [r Hr].
  unfold create_pendulum. rewrite Hr. eexists. eexists. reflexivity.
Qed.

Lemma created_ids_are_fresh_witness :
  exists l s2, create_pendulum (system_clear one_pendulum_system) default_params = Some (l, s2) /\
    exists q, heap s2 l = Some q /\ pendulum_id q <> 0%Z.
Proof.
  destruct create_after_clear_default as (l & s2 & C). exists l, s2. split; [exact C|].
  destruct (created_ids_are_fresh [OpClear] one_pendulum_system (system_clear one_pendulum_system)
              s2 default_params l one_pendulum_system_inv) as (q & Q & B & _);
    [cbn; intros [F|[]]; discriminate | reflexivity | exact C |].
  exists q. split; [exact Q|]. cbn in B. lia.
Defined.

Lemma update_all_spec d h dt g h' :
  NoDup (map snd d) -> update_all d h dt g = Some h' ->
  (forall l, In l (map snd d) ->
     exists q q', h l = Some q /\ update q dt g = Some q' /\ h' l = Some q') /\
  (forall l, ~ In l (map snd d) -> h' l = h l).
Proof.
  revert h. induction d as [|[k l0] r IH]; cbn; intros h Hnd H.
  - injection H as <-. split; [contradiction|reflexivity].
  - inversion Hnd as [|x xs Hn Hd]; subst.
    destruct (h l0) as [q0|] eqn:H0; [|discriminate].
    destruct (update q0 dt g) as [q0'|] eqn:U; [|discriminate].
    destruct (IH _ Hd H) as [In' Out'].
    split.
    + intros l [E|F].
      * subst l. exists q0, q0'. split; [exact H0|]. split; [exact U|].
        rewrite (Out' l0 Hn). unfold heap_set. rewrite Nat.eqb_refl. reflexivity.
      * destruct (In' l F) as (q & q' & Q & Uq & Q').
        exists q, q'. split; [|split; assumption].
        unfold heap_set in Q. destruct (Nat.eqb l l0) eqn:E.
        -- apply Nat.eqb_eq in E. subst. contradiction.
        -- exact Q.
    + intros l F. rewrite (Out' l (fun G => F (or_intror G))).
      unfold heap_set. destruct (Nat.eqb l l0) eqn:E; [|reflexivity].
      apply Nat.eqb_eq in E. subst. exfalso. apply F. left. reflexivity.
Qed.

Lemma NoDup_locs (d : list (Z * Loc)) :
  NoDup (map fst d) ->
  (forall k1 k2 l, In (k1, l) d -> In (k2, l) d -> k1 = k2) -> NoDup (map snd d).
Proof.
  induction d as [|[k l] r IH]; cbn; intros Hnd Hu; [apply NoDup_nil|].
  inversion Hnd as [|x xs Hn Hd]; subst. constructor.
  - intros F. apply in_map_iff in F as ([k' l'] & E & F). cbn in E. subst l'.
    assert (k' = k) as -> by (apply (Hu k' k l); [right; exact F|left; reflexivity]).
    apply Hn. apply (In_keys _ _ _ F).
  - apply IH; [exact Hd|]. intros k1 k2 l0 A B. apply (Hu k1 k2 l0); right; assumption.
Qed.

Lemma system_inv_locs s : system_inv s -> NoDup (map snd (pendulums s)).
Proof.
  intros (Hnd & Hobj & _ & _). apply NoDup_locs; [exact Hnd|].
  intros k1 k2 l A B. destruct (Hobj _ _ A) as (q1 & Q1 & I1).
  destruct (Hobj _ _ B) as (q2 & Q2 & I2). rewrite Q1 in Q2. injection Q2 as ->. congruence.
Qed.

(** X13: on a consistent system, a successful [PendulumSystem.update(dt,
    gravity)] keeps the dict, the selection and the counters, and replaces
    every registered object by the result of exactly one
    [update(dt, gravity)] on it. *)
Theorem system_update_steps_each_once (s s' : PendulumSystem) (dt gravity : R) :
  system_inv s -> system_update s dt gravity = Some s' ->
  pendulums s' = pendulums s /\ selected_pendulum s' = selected_pendulum s /\
  next_pendulum_id s' = next_pendulum_id s /\
  forall k l, In (k, l) (pendulums s) ->
    exists q q', heap s l = Some q /\ update q dt gravity = Some q' /\ heap s' l = Some q'.
Proof.
  intros Hinv H. unfold system_update in H.
  destruct (update_all (pendulums s) (heap s) dt gravity) as [h'|] eqn:U; [|discriminate].
  injection H as <-. cbn. split; [reflexivity|]. split; [reflexivity|]. split; [reflexivity|].
  destruct (update_all_spec _ _ _ _ _ (system_inv_locs _ Hinv) U) as [In' _].
  intros k l Hin. apply In'. apply (in_map snd) in Hin. exact Hin.
Qed.

Lemma update_positive_some p dt g :
  0 < length1 p -> 0 < length2 p -> 0 < mass1 p -> 0 <= mass2 p ->
  exists p', update p dt g = Some p'.
Proof.
  intros L1 L2 M1 M2. destruct (update p dt g) as [p'|] eqn:U; [eauto|exfalso].
  destruct (dragging p) eqn:Hd; [unfold update in U; rewrite Hd in U; discriminate|].
  apply (update_none_scheme _ _ _ Hd) in U. cbv zeta in U.
  destruct U as [U|[U|[U|U]]];
  match type of U with
  | ?l * spec_bracket ?m1 ?m2 ?a1 ?a2 = 0 =>
      assert (0 < l * spec_bracket m1 m2 a1 a2) by (apply denominator_pos; lra); lra
  end.
Qed.

Lemma system_update_steps_each_once_witness :
  exists s', system_update one_pendulum_system 0.01 9.81 = Some s' /\
    exists q', update sample_pendulum 0.01 9.81 = Some q' /\ heap s' 0%nat = Some q'.
Proof.
  destruct (update_positive_some sample_pendulum 0.01 9.81) as [q' Q'];
    try (unfold sample_pendulum; cbn; lra).
  assert (E : system_update one_pendulum_system 0.01 9.81 =
              Some (mkSystem [(0%Z, 0%nat)] (heap_set (heap one_pendulum_system) 0%nat q')
                             (Some 0%nat) 1%Z 1%nat)).
  { unfold system_update, one_pendulum_system. cbn [update_all pendulums heap].
    change (heap_set (fun _ : Loc => None) 0%nat sample_pendulum 0%nat)
      with (Some sample_pendulum).
    cbv beta iota. rewrite Q'. reflexivity. }
  exists (mkSystem [(0%Z, 0%nat)] (heap_set (heap one_pendulum_system) 0%nat q')
                   (Some 0%nat) 1%Z 1%nat).
  split; [exact E|].
  destruct (system_update_steps_each_once one_pendulum_system _ 0.01 9.81
              one_pendulum_system_inv E) as (_ & _ & _ & H).
  destruct (H 0%Z 0%nat (or_introl eq_refl)) as (q & q2 & Q & U & Q2).
  change (heap one_pendulum_system 0%nat) with (Some sample_pendulum) in Q.
  injection Q as <-. rewrite Q' in U. injection U as <-.
  exists q'. split; [exact Q'|exact Q2].
Defined.

Lemma scan_at_spec h d pos c :
  (exists l, scan_at h d pos c = Some l /\
     exists pre k post q, d = pre ++ (k, l) :: post /\ h l = Some q /\
       pendulum_at q pos c = true /\
       forall k' l' q', In (k', l') pre -> h l' = Some q' -> pendulum_at q' pos c = false) \/
  (scan_at h d pos c = None /\
     forall k l q, In (k, l) d -> h l = Some q -> pendulum_at q pos c = false).
Proof.
  induction d as [|[k0 l0] r IH]; cbn.
  - right. split; [reflexivity|contradiction].
  - destruct (h l0) as [q0|] eqn:H0.
    + destruct (pendulum_at q0 pos c) eqn:P.
      * left. exists l0. split; [reflexivity|]. exists [], k0, r, q0.
        split; [reflexivity|]. split; [exact H0|]. split; [exact P|]. contradiction.
      * destruct IH as [(l & S & pre & k & post & q & E & Q & Pq & Miss)|[S Miss]].
        -- left. exists l. split; [exact S|]. exists ((k0, l0) :: pre), k, post, q.
           split; [rewrite E; reflexivity|]. split; [exact Q|]. split; [exact Pq|].
           intros k' l' q' [F|F] Q'.
           ++ injection F as <- <-. rewrite H0 in Q'. injection Q' as <-. exact P.
           ++ exact (Miss _ _ _ F Q').
        -- right. split; [exact S|]. intros k l q [F|F] Q.
           ++ injection F as <- <-. rewrite H0 in Q. injection Q as <-. exact P.
           ++ exact (Miss _ _ _ F Q).
    + destruct IH as [(l & S & pre & k & post & q & E & Q & Pq & Miss)|[S Miss]].
      * left. exists l. split; [exact S|]. exists ((k0, l0) :: pre), k, post, q.
        split; [rewrite E; reflexivity|]. split; [exact Q|]. split; [exact Pq|].
        intros k' l' q' [F|F] Q'.
        -- injection F as <- <-. rewrite H0 in Q'. discriminate.
        -- exact (Miss _ _ _ F Q').
      * right. split; [exact S|]. intros k l q [F|F] Q.
        -- injection F as <- <-. rewrite H0 in Q. discriminate.
        -- exact (Miss _ _ _ F Q).
Qed.

(** X14: [try_select_pendulum_at_position] returns and selects the first
    pendulum in dict order with a bob under the position (second bob
    tested before the first); when no pendulum is hit it returns [None]
    and changes nothing, the previous selection included. *)
Theorem try_select_first_hit (s : PendulumSystem) (position screen_center : R * R) :
  let r := try_select_pendulum_at_position s position screen_center in
  (exists l, fst r = Some l /\
     snd r = mkSystem (pendulums s) (heap s) (Some l) (next_pendulum_id s) (next_loc s) /\
     exists pre k post q, pendulums s = pre ++ (k, l) :: post /\ heap s l = Some q /\
       pendulum_at q position screen_center = true /\
       forall k' l' q', In (k', l') pre -> heap s l' = Some q' ->
         pendulum_at q' position screen_center = false) \/
  (r = (None, s) /\
     forall k l q, In (k, l) (pendulums s) -> heap s l = Some q ->
       pendulum_at q position screen_center = false).
Proof.
  cbv zeta. unfold try_select_pendulum_at_position.
  destruct (scan_at_spec (heap s) (pendulums s) position screen_center)
    as [(l & S & Rest)|[S Miss]]; rewrite S.
  - left. exists l. split; [reflexivity|]. split; [reflexivity|exact Rest].
  - right. split; [reflexivity|exact Miss].
Qed.

Lemma scan_at_hit h d pos c l :
  scan_at h d pos c = Some l -> exists q, h l = Some q /\ pendulum_at q pos c = true.
Proof.
  induction d as [|[k0 l0] r IH]; cbn; [discriminate|].
  destruct (h l0) as [q0|] eqn:H0; [|exact IH].
  destruct (pendulum_at q0 pos c) eqn:P; [|exact IH].
  intros E. injection E as <-. exists q0. split; assumption.
Qed.

Lemma pendulum_at_start_drag q pos c :
  pendulum_at q pos c = true ->
  exists j, start_drag q pos c = (true, set_drag_state q true j) /\ (j = 1 \/ j = 2)%Z.
Proof.
  unfold pendulum_at, start_drag. cbv zeta.
  destruct (near_bob _ _ (fst c + offset_x q + x2 q) _ _); [intros _; exists 2%Z; auto|].
  destruct (near_bob _ _ (fst c + offset_x q + x1 q) _ _); [intros _; exists 1%Z; auto|].
  discriminate.
Qed.

Lemma heap_set_same h l q : heap_set h l q l = Some q.
Proof. unfold heap_set. rewrite Nat.eqb_refl. reflexivity. Qed.

Lemma end_drag_set_drag_state q b j : end_drag (set_drag_state q b j) = end_drag q.
Proof. destruct q. reflexivity. Qed.

(** X15: a click in the simulation area that hits a pendulum (the first
    one in dict order, as [try_select_pendulum_at_position] finds it)
    selects it, sets the scene's [dragging] flag and puts that pendulum in
    drag state on joint 1 or 2, leaving every other object as it was; a
    click that hits nothing changes neither the flag nor the system. *)
Theorem click_selects_and_starts_drag (s : PendulumSystem) (scene_dragging : bool)
  (pos screen_center : R * R) :
  let r := handle_simulation_click s scene_dragging pos screen_center in
  (exists l q j, fst (try_select_pendulum_at_position s pos screen_center) = Some l /\
     heap s l = Some q /\
     fst r = true /\ selected_pendulum (snd r) = Some l /\
     pendulums (snd r) = pendulums s /\
     heap (snd r) l = Some (set_drag_state q true j) /\ (j = 1 \/ j = 2)%Z /\
     forall l', l' <> l -> heap (snd r) l' = heap s l') \/
  (fst (try_select_pendulum_at_position s pos screen_center) = None /\
     r = (scene_dragging, s)).
Proof.
  cbv zeta. unfold handle_simulation_click, try_select_pendulum_at_position.
  destruct (scan_at (heap s) (pendulums s) pos screen_center) as [l|] eqn:S.
  - destruct (scan_at_hit _ _ _ _ _ S) as (q & Q & P).
    destruct (pendulum_at_start_drag _ _ _ P) as (j & D & J).
    left. exists l, q, j. cbn [heap fst snd]. rewrite Q, D. cbn.
    split; [reflexivity|]. split; [reflexivity|]. split; [reflexivity|].
    split; [reflexivity|]. split; [reflexivity|].
    split; [unfold heap_set; rewrite Nat.eqb_refl; reflexivity|].
    split; [exact J|].
    intros l' N. unfold heap_set. destruct (Nat.eqb l' l) eqn:E; [|reflexivity].
    apply Nat.eqb_eq in E. contradiction.
  - right. split; reflexivity.
Qed.

Lemma click_selects_and_starts_drag_witness :
  exists l q j,
    fst (try_select_pendulum_at_position one_pendulum_system
           (x2 sample_pendulum, y2 sample_pendulum) (0, 0)) = Some l /\
    heap one_pendulum_system l = Some q /\
    fst (handle_simulation_click one_pendulum_system false
           (x2 sample_pendulum, y2 sample_pendulum) (0, 0)) = true /\
    heap (snd (handle_simulation_click one_pendulum_system false
           (x2 sample_pendulum, y2 sample_pendulum) (0, 0))) l =
      Some (set_drag_state q true j).
Proof.
  destruct (click_selects_and_starts_drag one_pendulum_system false
              (x2 sample_pendulum, y2 sample_pendulum) (0, 0))
    as [(l & q & j & T & Q & F & _ & _ & H & _ & _)|[T _]].
  - exists l, q, j. split; [exact T|]. split; [exact Q|]. split; [exact F|exact H].
  - exfalso. revert T. unfold try_select_pendulum_at_position, one_pendulum_system.
    cbn [scan_at heap pendulums]. unfold heap_set. cbn [Nat.eqb].
    unfold pendulum_at, near_bob. cbn [fst snd]. cbv zeta.
    destruct (Rle_dec _ (py_max 10 (mass2 sample_pendulum))) as [_|N]; [discriminate|].
    exfalso. apply N.
    replace (x2 sample_pendulum - (0 + offset_x sample_pendulum + x2 sample_pendulum))
      with (- offset_x sample_pendulum) by ring.
    replace (y2 sample_pendulum - (0 + offset_y sample_pendulum + y2 sample_pendulum))
      with (- offset_y sample_pendulum) by ring.
    change (offset_x sample_pendulum) with 0. change (offset_y sample_pendulum) with 0.
    replace (- 0 * - 0 + - 0 * - 0) with 0 by ring. rewrite sqrt_0.
    unfold py_max. pose proof (Rmax_l 10 (mass2 sample_pendulum)). lra.
Defined.

(** X16: a click followed by a release leaves the scene's [dragging] flag
    false, keeps the dict, and leaves the selected object (the one hit by
    the click, or the previous selection when the click hit nothing) as
    [end_drag] of its state before the click: drag state reset and path
    trace emptied; every other object is unchanged. *)
Theorem click_then_release_ends_drag (s : PendulumSystem) (scene_dragging : bool)
  (pos screen_center : R * R) :
  let r := handle_simulation_release
             (snd (handle_simulation_click s scene_dragging pos screen_center)) in
  fst r = false /\ pendulums (snd r) = pendulums s /\
  match selected_pendulum (snd r) with
  | Some l =>
      (forall q, heap s l = Some q -> heap (snd r) l = Some (end_drag q)) /\
      (forall l', l' <> l -> heap (snd r) l' = heap s l')
  | None => heap (snd r) = heap s
  end.
Proof.
  cbv zeta. unfold handle_simulation_click, try_select_pendulum_at_position.
  destruct (scan_at (heap s) (pendulums s) pos screen_center) as [l|] eqn:S.
  - destruct (scan_at_hit _ _ _ _ _ S) as (q & Q & P).
    destruct (pendulum_at_start_drag _ _ _ P) as (j & D & _).
    cbn [heap]. rewrite Q, D. cbn [fst snd].
    unfold handle_simulation_release, set_object. cbn [selected_pendulum heap pendulums].
    rewrite heap_set_same. cbn [fst snd pendulums selected_pendulum heap].
    split; [reflexivity|]. split; [reflexivity|]. split.
    + intros q' Q'. rewrite Q in Q'. injection Q' as <-.
      unfold heap_set. rewrite Nat.eqb_refl, end_drag_set_drag_state. reflexivity.
    + intros l' N. unfold heap_set. destruct (Nat.eqb l' l) eqn:E; [|reflexivity].
      apply Nat.eqb_eq in E. contradiction.
  - cbn [snd]. unfold handle_simulation_release.
    destruct (selected_pendulum s) as [l|] eqn:Sel.
    + destruct (heap s l) as [q|] eqn:Q.
      * unfold set_object. cbn [fst snd pendulums selected_pendulum heap].
        rewrite Sel. split; [reflexivity|]. split; [reflexivity|]. split.
        -- intros q' Q'. rewrite Q in Q'. injection Q' as <-.
           unfold heap_set. rewrite Nat.eqb_refl. reflexivity.
        -- intros l' N. unfold heap_set. destruct (Nat.eqb l' l) eqn:E; [|reflexivity].
           apply Nat.eqb_eq in E. contradiction.
      * cbn [fst snd]. rewrite Sel. split; [reflexivity|]. split; [reflexivity|].
        split; [intros q' Q'; congruence|reflexivity].
    + cbn [fst snd]. rewrite Sel. split; [reflexivity|]. split; reflexivity.
Qed.

Lemma dict_del_length d k l : dict_get d k = Some l -> S (length (dict_del d k)) = length d.
Proof.
  induction d as [|[k' v'] r IH]; cbn; [discriminate|].
  destruct (k' =? k)%Z; [reflexivity|]. intros G. cbn. rewrite (IH G). reflexivity.
Qed.

Lemma two_pendulum_system_inv : system_inv two_pendulum_system.
Proof.
  inv_split.
  - constructor; [cbn; intros [H|[]]; discriminate|].
    constructor; [cbn; tauto|apply NoDup_nil].
  - intros k l [H|[H|[]]]; injection H as <- <-.
    + exists sample_pendulum. split; reflexivity.
    + exists (calculate_cartesian_positions (new_pendulum 1)). split; reflexivity.
  - intros k l [H|[H|[]]]; injection H as <- <-; split; lia.
  - intros l H. injection H as <-. exists 0%Z. left. reflexivity.
Qed.

(** X17: [SimulationScene.remove_selected_pendulum()] never removes the
    last pendulum: with at most one entry the system is unchanged. With
    more, it deletes the selected pendulum's entry (the dict shrinks by
    one and no longer has its id), keeps every object, and selects the
    first remaining entry; the system invariant is kept in both cases. *)
Theorem remove_selected_keeps_one (s : PendulumSystem) (l : Loc) (q : Pendulum) :
  system_inv s -> selected_pendulum s = Some l -> heap s l = Some q ->
  let s' := remove_selected_pendulum s in
  system_inv s' /\
  ((length (pendulums s) <= 1)%nat -> s' = s) /\
  ((1 < length (pendulums s))%nat ->
     pendulums s' = dict_del (pendulums s) (pendulum_id q) /\
     S (length (pendulums s')) = length (pendulums s) /\
     dict_get (pendulums s') (pendulum_id q) = None /\
     heap s' = heap s /\
     exists k1 l1 rest, pendulums s' = (k1, l1) :: rest /\ selected_pendulum s' = Some l1).
Proof.
  intros Hinv Sel Q. cbv zeta.
  pose proof Hinv as (Hnd & Hobj & _ & Hsel).
  destruct (Hsel l Sel) as [k K]. destruct (Hobj _ _ K) as (q' & Q' & I).
  rewrite Q in Q'. injection Q' as <-. subst k.
  pose proof (dict_get_NoDup _ _ _ Hnd K) as G.
  pose proof (dict_del_length _ _ _ G) as Len.
  assert (P1 : pendulums (snd (remove_pendulum s (pendulum_id q)))
               = dict_del (pendulums s) (pendulum_id q)).
  { unfold remove_pendulum, dict_mem. rewrite G. reflexivity. }
  assert (H1 : heap (snd (remove_pendulum s (pendulum_id q))) = heap s).
  { unfold remove_pendulum, dict_mem. rewrite G. reflexivity. }
  assert (Inv1 : system_inv (snd (remove_pendulum s (pendulum_id q)))).
  { apply (system_inv_preserved (OpRemove (pendulum_id q)) s); [exact Hinv|reflexivity]. }
  unfold remove_selected_pendulum. rewrite Sel, Q.
  destruct (1 <? length (pendulums s))%nat eqn:L.
  - apply Nat.ltb_lt in L.
    revert P1 H1 Inv1. generalize (snd (remove_pendulum s (pendulum_id q))) as s1.
    intros s1 P1 H1 Inv1.
    assert (LP : S (length (pendulums s1)) = length (pendulums s)) by (rewrite P1; exact Len).
    assert (Gd : dict_get (pendulums s1) (pendulum_id q) = None)
      by (rewrite P1; apply dict_del_get, Hnd).
    destruct (pendulums s1) as [|[k1 l1] rest] eqn:E1; [cbn in LP; lia|].
    cbn [length Nat.ltb Nat.leb]. unfold select_pendulum. rewrite E1.
    cbn [dict_get]. rewrite Z.eqb_refl. cbn [snd pendulums heap selected_pendulum].
    split.
    + apply (system_inv_preserved (OpSelect k1) s1); [exact Inv1|].
      unfold run_system_op, select_pendulum. rewrite E1. cbn [dict_get].
      rewrite Z.eqb_refl. reflexivity.
    + split; [intros; lia|]. intros _.
      split; [rewrite <- P1; reflexivity|]. split; [exact LP|]. split; [exact Gd|].
      split; [exact H1|]. exists k1, l1, rest. split; reflexivity.
  - apply Nat.ltb_ge in L. split; [exact Hinv|]. split; [reflexivity|]. intros; lia.
Qed.

Lemma remove_selected_keeps_one_witness :
  system_inv two_pendulum_system /\
  pendulums (remove_selected_pendulum two_pendulum_system) = [(1%Z, 1%nat)] /\
  selected_pendulum (remove_selected_pendulum two_pendulum_system) = Some 1%nat.
Proof.
  destruct (remove_selected_keeps_one two_pendulum_system 0%nat sample_pendulum
              two_pendulum_system_inv eq_refl eq_refl) as (_ & _ & H).
  destruct H as (P & _ & _ & _ & k1 & l1 & rest & E & Sel); [cbn; lia|].
  split; [exact two_pendulum_system_inv|].
  assert (D : pendulums (remove_selected_pendulum two_pendulum_system) = [(1%Z, 1%nat)])
    by (rewrite P; reflexivity).
  split; [exact D|]. rewrite D in E. injection E as <- <- <-. exact Sel.
Defined.

(** X18: the offsets [add_pendulum] gives a new pendulum from the current
    count are pairwise distinct, except that the fifth pendulum (count 4)
    gets offset [(0, 0)], the same as the first one (count 0). *)
Theorem add_pendulum_offset_collisions (c1 c2 : Z) :
  (0 <= c1)%Z -> (0 <= c2)%Z ->
  add_pendulum_offset c1 = add_pendulum_offset c2 <->
  c1 = c2 \/ (c1 = 0 /\ c2 = 4)%Z \/ (c1 = 4 /\ c2 = 0)%Z.
Proof.
  intros H1 H2. unfold add_pendulum_offset.
  destruct (c1 >? 0)%Z eqn:E1; destruct (c2 >? 0)%Z eqn:E2;
    rewrite ?Z.gtb_lt in E1, E2; rewrite ?Z.gtb_ltb, ?Z.ltb_ge in E1, E2;
    split; intros H.
  - injection H as Hx Hy. left. Z.div_mod_to_equations. lia.
  - destruct H as [->|[[-> ->]|[-> ->]]]; [reflexivity|lia|lia].
  - injection H as Hx Hy. right. right. Z.div_mod_to_equations. lia.
  - destruct H as [->|[[-> ->]|[-> ->]]]; [lia|lia|reflexivity].
  - injection H as Hx Hy. right. left. Z.div_mod_to_equations. lia.
  - destruct H as [->|[[-> ->]|[-> ->]]]; [lia|reflexivity|lia].
  - left. lia.
  - reflexivity.
Qed.

Lemma add_pendulum_offset_collisions_witness :
  (0 <= 0)%Z /\ (0 <= 4)%Z /\ add_pendulum_offset 0 = add_pendulum_offset 4.
Proof.
  split; [lia|]. split; [lia|].
  apply (proj2 (add_pendulum_offset_collisions 0 4 ltac:(lia) ltac:(lia))).
  right. left. split; reflexivity.
Defined.

(** X19: [SimulationScene.add_pendulum()] raises exactly when the default
    path duration gives a negative [maxlen] ([int(duration * 60) < 0]).
    Otherwise it registers and selects a new object under the next id. The
    new object is placed at [add_pendulum_offset] of the current count, and
    its path colour is [colors[count % 6]]. *)
Theorem add_pendulum_places_new (defaults : PendulumParams) (s : PendulumSystem) :
  let count := Z.of_nat (length (pendulums s)) in
  match add_pendulum defaults s with
  | None => (py_int (pp_path_duration defaults * 60) < 0)%Z
  | Some (l, s') =>
      (0 <= py_int (pp_path_duration defaults * 60))%Z /\
      l = next_loc s /\ selected_pendulum s' = Some l /\
      pendulums s' = dict_set (pendulums s) (next_pendulum_id s) l /\
      next_pendulum_id s' = (next_pendulum_id s + 1)%Z /\
      exists q, heap s' l = Some q /\ pendulum_id q = next_pendulum_id s /\
        offset_x q = IZR (fst (add_pendulum_offset count)) /\
        offset_y q = IZR (snd (add_pendulum_offset count)) /\
        color (path_tracer q) = nth (Z.to_nat (count mod 6)) path_colors (0, 0, 0)%Z
  end.
Proof.
  cbv zeta. unfold add_pendulum. cbv zeta.
  change (Z.of_nat (length path_colors)) with 6%Z.
  set (count := Z.of_nat (length (pendulums s))).
  assert (Hc : nth_error path_colors (Z.to_nat (count mod 6))
               = Some (nth (Z.to_nat (count mod 6)) path_colors (0, 0, 0)%Z)).
  { apply nth_error_nth'. change (length path_colors) with 6%nat.
    pose proof (Z.mod_pos_bound count 6). lia. }
  rewrite Hc. unfold create_pendulum, initialize, tracer_initialize, new_deque.
  cbn [pp_path_duration pp_path_color].
  destruct (py_int (pp_path_duration defaults * 60) <? 0)%Z eqn:E.
  - apply Z.ltb_lt in E. exact E.
  - apply Z.ltb_ge in E. cbn [fst snd selected_pendulum pendulums heap next_pendulum_id].
    split; [exact E|]. split; [reflexivity|]. split; [reflexivity|].
    split; [reflexivity|]. split; [reflexivity|].
    eexists. split; [apply heap_set_same|]. split; [reflexivity|].
    split; [reflexivity|]. split; reflexivity.
Qed.

Lemma str_dict_get_set {V : Type} (d : list (string * V)) k v k' :
  str_dict_get (str_dict_set d k v) k' =
  if String.eqb k k' then Some v else str_dict_get d k'.
Proof.
  induction d as [|[k0 v0] r IH]; cbn.
  - destruct (String.eqb k k'); reflexivity.
  - destruct (String.eqb_spec k0 k) as [->|N]; cbn.
    + destruct (String.eqb k k'); reflexivity.
    + rewrite IH. destruct (String.eqb_spec k0 k') as [->|N']; [|reflexivity].
      destruct (String.eqb_spec k k') as [->|_]; [contradiction|reflexivity].
Qed.

Lemma str_dict_set_keys {V : Type} (d : list (string * V)) k v :
  map fst (str_dict_set d k v) =
  if existsb (fun k' => String.eqb k' k) (map fst d) then map fst d else map fst d ++ [k].
Proof.
  induction d as [|[k0 v0] r IH]; cbn; [reflexivity|].
  destruct (String.eqb k0 k) eqn:E; cbn; [reflexivity|].
  rewrite IH. destruct (existsb _ _); reflexivity.
Qed.

(** X20: [set_setting(key, value)] followed by [get_setting(key', default)]
    gives [value] when [key' = key] and the old result otherwise; it
    overwrites an existing key in place and appends a new key at the end
    of the settings' key order. *)
Theorem set_then_get_setting (settings : Settings) (key key' : string)
  (value default : SettingValue) :
  get_setting (set_setting settings key value) key' default =
    (if String.eqb key key' then value else get_setting settings key' default) /\
  map fst (set_setting settings key value) =
    (if existsb (fun k => String.eqb k key) (map fst settings)
     then map fst settings else map fst settings ++ [key]).
Proof.
  unfold get_setting, set_setting. rewrite str_dict_get_set. split.
  - destruct (String.eqb key key'); reflexivity.
  - apply str_dict_set_keys.
Qed.

Lemma str_dict_get_None {V : Type} (d : list (string * V)) k :
  ~ In k (map fst d) -> str_dict_get d k = None.
Proof.
  induction d as [|[k0 v0] r IH]; cbn; intros N; [reflexivity|].
  destruct (String.eqb_spec k0 k) as [->|_]; [exfalso; apply N; left; reflexivity|].
  apply IH. intros F. apply N. right. exact F.
Qed.

Lemma merge_loaded_get (settings loaded : Settings) k :
  NoDup (map fst loaded) ->
  str_dict_get (merge_loaded settings loaded) k =
  match str_dict_get loaded k with Some v => Some v | None => str_dict_get settings k end.
Proof.
  unfold merge_loaded. revert settings.
  induction loaded as [|[k0 v0] r IH]; cbn; intros settings Hnd; [reflexivity|].
  inversion Hnd as [|x xs Hn Hd]; subst.
  rewrite (IH _ Hd), str_dict_get_set.
  destruct (String.eqb_spec k0 k) as [->|N].
  - rewrite (str_dict_get_None r k Hn). reflexivity.
  - reflexivity.
Qed.

(** X21: after [ConfigManager.initialize()] with a configuration file
    holding a JSON object, [get_setting(key, default)] returns the file's
    value for every key the file has, and otherwise the built-in default
    of [initialize()], or [default] for a key neither has. *)
Theorem initialize_file_overrides_defaults (loaded : Settings) (key : string)
  (default : SettingValue) :
  NoDup (map fst loaded) ->
  get_setting (config_initialize (Some loaded)) key default =
  match str_dict_get loaded key with
  | Some v => v
  | None => get_setting default_settings key default
  end.
Proof.
  intros Hnd. unfold get_setting, config_initialize. rewrite (merge_loaded_get _ _ _ Hnd).
  destruct (str_dict_get loaded key); reflexivity.
Qed.

Lemma initialize_file_overrides_defaults_witness :
  NoDup (map fst dark_config_file) /\
  get_setting (config_initialize (Some dark_config_file)) "fps"%string SNone = SNum 60 /\
  get_setting (config_initialize (Some dark_config_file)) "theme"%string SNone
    = SStr "dark"%string.
Proof.
  assert (Hnd : NoDup (map fst dark_config_file))
    by (constructor; [intros []|apply NoDup_nil]).
  split; [exact Hnd|]. split.
  - rewrite (initialize_file_overrides_defaults _ "fps"%string SNone Hnd). reflexivity.
  - rewrite (initialize_file_overrides_defaults _ "theme"%string SNone Hnd). reflexivity.
Defined.

(** X22: [apply_theme(name)] stores [name] under ["theme"], leaves every
    other setting as it was, and returns the dark colour scheme when
    [name = "dark"] and the light one for any other name. *)
Theorem apply_theme_result (settings : Settings) (name key : string) (default : SettingValue) :
  get_setting (fst (apply_theme settings name)) "theme"%string default = SStr name /\
  (key <> "theme"%string ->
     get_setting (fst (apply_theme settings name)) key default = get_setting settings key default) /\
  snd (apply_theme settings name) = if String.eqb name "dark" then dark_theme else light_theme.
Proof.
  unfold apply_theme, get_setting, set_setting. cbn [fst snd].
  split; [rewrite str_dict_get_set, String.eqb_refl; reflexivity|]. split.
  - intros N. rewrite str_dict_get_set.
    destruct (String.eqb_spec "theme"%string key) as [E|_]; [subst; contradiction|reflexivity].
  - unfold themes. cbn [str_dict_get].
    destruct (String.eqb_spec "light"%string name) as [<-|N1]; [reflexivity|].
    destruct (String.eqb_spec "dark"%string name) as [<-|N2]; [reflexivity|].
    destruct (String.eqb_spec name "dark"%string) as [E|_]; [subst; contradiction|reflexivity].
Qed.

Lemma apply_theme_result_witness :
  snd (apply_theme default_settings "dark"%string) = dark_theme /\
  get_setting (fst (apply_theme default_settings "dark"%string)) "fps"%string SNone = SNum 60.
Proof.
  destruct (apply_theme_result default_settings "dark"%string "fps"%string SNone)
    as (_ & H & T).
  split; [rewrite T; reflexivity|]. rewrite H; [reflexivity|discriminate].
Defined.
